(** * Echo: the flat-file post store of the anonymous micro-posting server

    A shallow embedding of the Express handlers of the server (the variant
    with the admin panel and the ban list) and the properties of its vote,
    bookmark, report and deletion logic.

    Conventions of the embedding:
    - a JavaScript array is a [list]; [push] appends at the end, [unshift]
      conses at the front, [findIndex]/[find] are stdpp's [list_find],
      [splice(i, 1)] is [delete i], [filter] is [filter], an assignment to a
      field of the [i]-th element is [alter _ i];
    - [readDB] always hands the handlers an object whose six collections are
      arrays, so the database is a record of lists ([users] is never read or
      written by a handler and is left out);
    - what a handler draws from its environment (the clock, [uuidv4], the
      random colour) is an explicit argument;
    - a handler returns its HTTP answer together with the database that is on
      disk when it answers: the one it passed to [writeDB], or the one it
      read when it answers before writing. *)

From stdpp Require Import base decidable option list strings numbers gmap sorting.

(** ** Data model *)

(** A JavaScript string seen as its UTF-16 code units; [content.length]
    counts them. Identifiers (post ids, voter ids, timestamps) are only ever
    compared with [===] and are plain strings. *)
Definition jsstring := list N.

Inductive VoteType := up | down.

Global Instance VoteType_eq_dec : EqDecision VoteType.
Proof. solve_decision. Defined.

Module MediaFile.
Record t := mk {
  fileUrl : string;
  fileName : string;
  fileType : string;
  fileSize : N }.
End MediaFile.

Module Post.
Record t := mk {
  id : string;
  content : jsstring;
  tags : list string;
  media : list MediaFile.t;
  ownerId : string;
  timestamp : string;
  color : nat }.
End Post.

Module Comment.
Record t := mk {
  id : string;
  postId : string;
  content : jsstring;
  timestamp : string }.
End Comment.

Module Vote.
Record t := mk {
  postId : string;
  voterId : string;
  type : VoteType;
  timestamp : string }.

(** [db.votes[i].type = type] *)
Definition set_type (ty : VoteType) (v : t) : t :=
  mk (postId v) (voterId v) ty (timestamp v).
End Vote.

Module Bookmark.
Record t := mk {
  postId : string;
  userId : string;
  timestamp : string }.
End Bookmark.

Module Report.
(** A report is only ever built as an object literal and handed back as
    JSON, so it is kept as the object it is: a finite map from keys to
    (string) values. Reading a key the object does not have yields
    [undefined], here [None]. *)
Definition t := gmap string string.
End Report.

Record DB := mkDB {
  posts : list Post.t;
  comments : list Comment.t;
  votes : list Vote.t;
  bookmarks : list Bookmark.t;
  reports : list Report.t }.

(** [initializeDB] *)
Definition initializeDB : DB := mkDB [] [] [] [] [].

Definition set_posts (ps : list Post.t) (db : DB) : DB :=
  mkDB ps (comments db) (votes db) (bookmarks db) (reports db).
Definition set_comments (cs : list Comment.t) (db : DB) : DB :=
  mkDB (posts db) cs (votes db) (bookmarks db) (reports db).
Definition set_votes (vs : list Vote.t) (db : DB) : DB :=
  mkDB (posts db) (comments db) vs (bookmarks db) (reports db).
Definition set_bookmarks (bs : list Bookmark.t) (db : DB) : DB :=
  mkDB (posts db) (comments db) (votes db) bs (reports db).
Definition set_reports (rs : list Report.t) (db : DB) : DB :=
  mkDB (posts db) (comments db) (votes db) (bookmarks db) rs.

(** ** Answers *)

(** The failure statuses the handlers answer with: 400, 403 and 404. *)
Inductive Failure := InvalidArgument | Forbidden | NotFound.

Inductive Result (A : Type) :=
  | Ok (a : A)
  | Err (f : Failure).
Arguments Ok {A} a.
Arguments Err {A} f.

(** [checkBan]: the middleware in front of every mutating public route. *)
Definition checkBan {A} (voterId : string) (banned : list string)
    (next : DB -> Result A * DB) (db : DB) : Result A * DB :=
  if bool_decide (voterId ∈ banned) then (Err Forbidden, db) else next db.

(** ** Vote ledger *)

(** ['up'] and ['down'] are the only request values that pass
    [['up', 'down'].includes(type)]. *)
Definition parseType (type : string) : option VoteType :=
  if bool_decide (type = "up"%string) then Some up
  else if bool_decide (type = "down"%string) then Some down
  else None.

Inductive Milestone := HotPost | Viral | Legendary.

Module VoteResponse.
Record t := mk {
  upvotes : nat;
  downvotes : nat;
  netVotes : Z;
  milestone : option Milestone;
  userVote : option VoteType }.
End VoteResponse.

(** [v => v.postId === id && v.voterId === voterId] *)
Definition is_vote_of (id voterId : string) (v : Vote.t) : Prop :=
  Vote.postId v = id ∧ Vote.voterId v = voterId.

Global Instance is_vote_of_dec id voterId v : Decision (is_vote_of id voterId v).
Proof. unfold is_vote_of. apply _. Defined.

(** The tallies of a post, as every route computes them: filter the votes of
    the post, then count each type. *)
Definition postVotes (id : string) (vs : list Vote.t) : list Vote.t :=
  filter (λ v, Vote.postId v = id) vs.
Definition count_type (ty : VoteType) (vs : list Vote.t) : nat :=
  length (filter (λ v, Vote.type v = ty) vs).
Definition net_of (id : string) (vs : list Vote.t) : Z :=
  (Z.of_nat (count_type up (postVotes id vs))
   - Z.of_nat (count_type down (postVotes id vs)))%Z.

(** The three [if (netVotes === ...)] statements, in order. *)
Definition milestone_of (netVotes : Z) : option Milestone :=
  let m := None in
  let m := if bool_decide (netVotes = 10%Z) then Some HotPost else m in
  let m := if bool_decide (netVotes = 50%Z) then Some Viral else m in
  let m := if bool_decide (netVotes = 100%Z) then Some Legendary else m in
  m.

(** The update of [db.votes] in the vote route. *)
Definition apply_vote (id voterId : string) (ty : VoteType) (now : string)
    (vs : list Vote.t) : list Vote.t :=
  match list_find (is_vote_of id voterId) vs with
  | Some (i, existing) =>
      if bool_decide (Vote.type existing = ty)
      then delete i vs
      else alter (Vote.set_type ty) i vs
  | None => vs ++ [Vote.mk id voterId ty now]
  end.

(** [app.post('/api/posts/:id/vote')], after the ban gate. *)
Definition castVote (id voterId type now : string) (db : DB)
    : Result VoteResponse.t * DB :=
  match parseType type with
  | None => (Err InvalidArgument, db)
  | Some ty =>
      match list_find (λ p, Post.id p = id) (posts db) with
      | None => (Err NotFound, db)
      | Some _ =>
          let vs := apply_vote id voterId ty now (votes db) in
          let pv := postVotes id vs in
          let upvotes := count_type up pv in
          let downvotes := count_type down pv in
          let netVotes := (Z.of_nat upvotes - Z.of_nat downvotes)%Z in
          (Ok (VoteResponse.mk upvotes downvotes netVotes (milestone_of netVotes)
                 (Vote.type ∘ snd <$> list_find (is_vote_of id voterId) vs)),
           set_votes vs db)
      end
  end.

(** ** Bookmark ledger *)

(** [b => b.postId === id && b.userId === userId] *)
Definition is_bookmark_of (id userId : string) (b : Bookmark.t) : Prop :=
  Bookmark.postId b = id ∧ Bookmark.userId b = userId.

Global Instance is_bookmark_of_dec id userId b :
  Decision (is_bookmark_of id userId b).
Proof. unfold is_bookmark_of. apply _. Defined.

(** [app.post('/api/posts/:id/bookmark')], after the ban gate; the payload is
    the [bookmarked] flag. The elements of [db.bookmarks] are the distinct
    objects [JSON.parse] built, so [filter(b => b !== existingBookmark)]
    drops the one element [find] returned, the first of the pair, and keeps
    every other. *)
Definition toggleBookmark (id userId now : string) (db : DB) : Result bool * DB :=
  match list_find (is_bookmark_of id userId) (bookmarks db) with
  | Some (i, existingBookmark) =>
      (Ok false, set_bookmarks (delete i (bookmarks db)) db)
  | None =>
      (Ok true, set_bookmarks (bookmarks db ++ [Bookmark.mk id userId now]) db)
  end.

(** [isBookmarked] as the listing computes it:
    [db.bookmarks.some(b => b.postId === id && b.userId === userId)]. *)
Definition isBookmarked (id userId : string) (bs : list Bookmark.t) : bool :=
  bool_decide (Exists (is_bookmark_of id userId) bs).

(** ** Post lifecycle *)

(** White space and line terminators of ECMAScript, the code units
    [String.prototype.trim] strips. *)
Definition is_whitespace (c : N) : bool :=
  ((c =? 9) || (c =? 10) || (c =? 11) || (c =? 12) || (c =? 13) || (c =? 32)
   || (c =? 160) || (c =? 5760) || ((8192 <=? c) && (c <=? 8202))
   || (c =? 8232) || (c =? 8233) || (c =? 8239) || (c =? 8287)
   || (c =? 12288) || (c =? 65279))%N.

Fixpoint trimStart (s : jsstring) : jsstring :=
  match s with
  | c :: s' => if is_whitespace c then trimStart s' else s
  | [] => []
  end.

Definition trim (s : jsstring) : jsstring :=
  reverse (trimStart (reverse (trimStart s))).

(** [app.post('/api/posts')], after the ban gate. [content], [tags] and
    [media] are the fields of the request body, [None] when absent. *)
Definition createPost (content : option jsstring) (tags : option (list string))
    (media : option (list MediaFile.t)) (ownerId uuid now : string) (color : nat)
    (db : DB) : Result Post.t * DB :=
  match content with
  | None => (Err InvalidArgument, db)
  | Some content =>
      if bool_decide (content = []) || bool_decide (length (trim content) = 0)
      then (Err InvalidArgument, db)
      else if bool_decide (1000 < length content)
      then (Err InvalidArgument, db)
      else
        let newPost :=
          Post.mk uuid (trim content) (default [] tags) (default [] media)
                  ownerId now color in
        (Ok newPost, set_posts (newPost :: posts db) db)
  end.

(** [app.post('/api/posts/:id/comments')], after the ban gate. *)
Definition addComment (id : string) (content : option jsstring) (uuid now : string)
    (db : DB) : Result Comment.t * DB :=
  match content with
  | None => (Err InvalidArgument, db)
  | Some content =>
      if bool_decide (content = []) || bool_decide (length (trim content) = 0)
      then (Err InvalidArgument, db)
      else if bool_decide (500 < length content)
      then (Err InvalidArgument, db)
      else
        match list_find (λ p, Post.id p = id) (posts db) with
        | None => (Err NotFound, db)
        | Some _ =>
            let newComment := Comment.mk uuid id (trim content) now in
            (Ok newComment, set_comments (comments db ++ [newComment]) db)
        end
  end.

(** [reason || 'No reason provided'] *)
Definition reason_or_default (reason : option string) : string :=
  match reason with
  | Some r => if bool_decide (r = EmptyString) then "No reason provided"%string else r
  | None => "No reason provided"%string
  end.

(** The object literal pushed by the report route. *)
Definition new_report (uuid id : string) (reason : option string)
    (reportedBy now : string) : Report.t :=
  <["id"%string := uuid]> (
  <["postId"%string := id]> (
  <["reason"%string := reason_or_default reason]> (
  <["reportedBy"%string := reportedBy]> (
  <["timestamp"%string := now]> ∅)))).

(** [app.post('/api/posts/:id/report')], after the ban gate. *)
Definition submitReport (id : string) (reason : option string)
    (reporterId uuid now : string) (db : DB) : Result unit * DB :=
  match list_find (λ p, Post.id p = id) (posts db) with
  | None => (Err NotFound, db)
  | Some _ =>
      (Ok (), set_reports (reports db ++ [new_report uuid id reason reporterId now]) db)
  end.

(** The uploaded files a deletion unlinks (best effort, failures swallowed):
    those of the media entries with a non-empty [fileUrl]. *)
Definition unlinked (post : Post.t) : list string :=
  MediaFile.fileUrl <$> filter (λ f, MediaFile.fileUrl f ≠ EmptyString) (Post.media post).

(** The cascade both deletion routes run on the dependent collections. *)
Definition cascade (id : string) (ps : list Post.t) (db : DB) : DB :=
  mkDB ps
       (filter (λ c, Comment.postId c ≠ id) (comments db))
       (filter (λ v, Vote.postId v ≠ id) (votes db))
       (filter (λ b, Bookmark.postId b ≠ id) (bookmarks db))
       (reports db).

(** [app.delete('/api/posts/:id')], after the ban gate: the owner's route.
    The payload lists the unlinked files. *)
Definition deletePost (id voterId : string) (db : DB) : Result (list string) * DB :=
  match list_find (λ p, Post.id p = id) (posts db) with
  | None => (Err NotFound, db)
  | Some (_, post) =>
      if bool_decide (Post.ownerId post ≠ voterId) then (Err Forbidden, db)
      else (Ok (unlinked post),
            cascade id (filter (λ p, Post.id p ≠ id) (posts db)) db)
  end.

(** [app.delete('/api/admin/posts/:id')], after [requireAdmin]. *)
Definition adminDeletePost (id : string) (db : DB) : Result (list string) * DB :=
  match list_find (λ p, Post.id p = id) (posts db) with
  | None => (Err NotFound, db)
  | Some (postIndex, post) =>
      (Ok (unlinked post), cascade id (delete postIndex (posts db)) db)
  end.

(** ** Ban list *)

(** The predicate both filters of the ban route apply to the [postId] of a
    comment or vote: look the post up in [db.posts], which at that point is
    already the filtered array, and keep the record when
    [!post || post.ownerId !== voterId]. *)
Definition ban_keeps (ps : list Post.t) (voterId postId : string) : bool :=
  match list_find (λ p, Post.id p = postId) ps with
  | None => true
  | Some (_, post) => bool_decide (Post.ownerId post ≠ voterId)
  end.

(** [app.post('/api/admin/ban')], after [requireAdmin]. The state is the ban
    list of [banned.json] and the database. *)
Definition banIdentity (voterId : string) (deletePosts : bool)
    (banned : list string) (db : DB) : Result unit * (list string * DB) :=
  if bool_decide (voterId = EmptyString) then (Err InvalidArgument, (banned, db))
  else
    let banned :=
      if bool_decide (voterId ∈ banned) then banned else banned ++ [voterId] in
    if deletePosts then
      let ps := filter (λ p, Post.ownerId p ≠ voterId) (posts db) in
      let cs := filter (λ c, ban_keeps ps voterId (Comment.postId c)) (comments db) in
      let vs := filter (λ v, ban_keeps ps voterId (Vote.postId v)) (votes db) in
      (Ok (), (banned, mkDB ps cs vs (bookmarks db) (reports db)))
    else (Ok (), (banned, db)).

(** [app.post('/api/admin/unban')], after [requireAdmin]. *)
Definition unbanIdentity (voterId : string) (banned : list string)
    : Result unit * list string :=
  if bool_decide (voterId = EmptyString) then (Err InvalidArgument, banned)
  else (Ok (), filter (λ id, id ≠ voterId) banned).

(** ** Aggregation *)

(** [Array.prototype.sort] with a comparator. ECMAScript requires the sort
    to be stable: [a] stays in front of a later [b] unless the comparator
    says [cmp a b > 0]. Insertion from the right is the plainest sort with
    that behaviour; [stable_sort_unique] below shows that the outcome does not
    depend on the algorithm. *)
Fixpoint sort_insert {A} (cmp : A → A → Z) (x : A) (l : list A) : list A :=
  match l with
  | [] => [x]
  | y :: l' =>
      if bool_decide (cmp x y ≤ 0)%Z then x :: l else y :: sort_insert cmp x l'
  end.

Definition sort {A} (cmp : A → A → Z) (l : list A) : list A :=
  foldr (sort_insert cmp) [] l.

(** [\w] of the regular expression [#\w+]: an ASCII letter, a digit or the
    underscore. *)
Definition is_word (c : N) : bool :=
  (((48 <=? c) && (c <=? 57)) || ((65 <=? c) && (c <=? 90)) || (c =? 95)
   || ((97 <=? c) && (c <=? 122)))%N.

Fixpoint word_prefix (s : jsstring) : jsstring :=
  match s with
  | c :: s' => if is_word c then c :: word_prefix s' else []
  | [] => []
  end.

(** [content.match(/#\w+/g)]: each [#] directly followed by a word
    character, with the longest run of word characters behind it. A word
    character is never [#], so no match starts inside another. *)
Fixpoint hashtag_matches (s : jsstring) : list jsstring :=
  match s with
  | c :: s' =>
      if (c =? 35)%N then
        match word_prefix s' with
        | [] => hashtag_matches s'
        | w => (c :: w) :: hashtag_matches s'
        end
      else hashtag_matches s'
  | [] => []
  end.

(** [toLowerCase] on a match, whose letters are ASCII. *)
Definition toLowerCase (s : jsstring) : jsstring :=
  (λ c, if ((65 <=? c) && (c <=? 90))%N then (c + 32)%N else c) <$> s.

(** [[...new Set(l)]]: the first occurrence of each element, in order. *)
Fixpoint set_order (l : list jsstring) : list jsstring :=
  match l with
  | x :: l' => x :: filter (λ y, y ≠ x) (set_order l')
  | [] => []
  end.

Definition extractHashtags (content : jsstring) : list jsstring :=
  set_order (toLowerCase <$> hashtag_matches content).

Module PostView.
(** What the listing spreads over a post. The computed keys come after
    [...post] in the literal, so they win over a stored key of the same
    name. *)
Record t := mk {
  post : Post.t;
  comments : list Comment.t;
  commentCount : nat;
  upvotes : nat;
  downvotes : nat;
  netVotes : Z;
  userVote : option VoteType;
  isOwner : bool;
  isBookmarked : bool;
  hashtags : list jsstring }.
End PostView.

(** The callback of [db.posts.map] in the listing. *)
Definition view (voterId : string) (db : DB) (post : Post.t) : PostView.t :=
  let userVote := snd <$> list_find (is_vote_of (Post.id post) voterId) (votes db) in
  let postComments := filter (λ c, Comment.postId c = Post.id post) (comments db) in
  let pv := postVotes (Post.id post) (votes db) in
  PostView.mk post postComments (length postComments)
    (count_type up pv) (count_type down pv)
    (Z.of_nat (count_type up pv) - Z.of_nat (count_type down pv))%Z
    (Vote.type <$> userVote)
    (bool_decide (Post.ownerId post = voterId))
    (isBookmarked (Post.id post) voterId (bookmarks db))
    (extractHashtags (Post.content post)).

(** [app.get('/api/posts')] *)
Definition listPosts (voterId : string) (db : DB) : list PostView.t :=
  sort (λ a b, (PostView.netVotes b - PostView.netVotes a)%Z)
       (view voterId db <$> posts db).

(** ** The server as a state machine *)

(** What is on disk between two requests: [db.json] and [banned.json]. *)
Record State := mkState {
  db_of : DB;
  banned_of : list string }.

(** The mutating requests; [caller] is the fingerprint [getVoterId] derives
    from the request, the admin requests are those that passed
    [requireAdmin]. *)
Inductive Request :=
  | CreatePost (caller : string) (content : option jsstring)
      (tags : option (list string)) (media : option (list MediaFile.t))
      (uuid now : string) (color : nat)
  | CastVote (caller id type now : string)
  | ToggleBookmark (caller id now : string)
  | AddComment (caller id : string) (content : option jsstring) (uuid now : string)
  | SubmitReport (caller id : string) (reason : option string) (uuid now : string)
  | DeletePost (caller id : string)
  | AdminDeletePost (id : string)
  | AdminBan (voterId : string) (deletePosts : bool)
  | AdminUnban (voterId : string).

Definition handle (req : Request) (st : State) : State :=
  let gated {A} (caller : string) (next : DB → Result A * DB) : State :=
    mkState (snd (checkBan caller (banned_of st) next (db_of st))) (banned_of st) in
  match req with
  | CreatePost caller content tags media uuid now color =>
      gated caller (createPost content tags media caller uuid now color)
  | CastVote caller id type now => gated caller (castVote id caller type now)
  | ToggleBookmark caller id now => gated caller (toggleBookmark id caller now)
  | AddComment caller id content uuid now => gated caller (addComment id content uuid now)
  | SubmitReport caller id reason uuid now =>
      gated caller (submitReport id reason caller uuid now)
  | DeletePost caller id => gated caller (deletePost id caller)
  | AdminDeletePost id => mkState (snd (adminDeletePost id (db_of st))) (banned_of st)
  | AdminBan voterId deletePosts =>
      let '(_, (banned, db)) := banIdentity voterId deletePosts (banned_of st) (db_of st) in
      mkState db banned
  | AdminUnban voterId => mkState (db_of st) (snd (unbanIdentity voterId (banned_of st)))
  end.

(** [uuidv4] hands out an id no stored post carries. *)
Definition fresh_uuid (req : Request) (st : State) : Prop :=
  match req with
  | CreatePost _ _ _ _ uuid _ _ => Forall (λ p, Post.id p ≠ uuid) (posts (db_of st))
  | _ => True
  end.

(** The stores the server arrives at from the empty database. *)
Inductive reachable : State → Prop :=
  | reachable_init : reachable (mkState initializeDB [])
  | reachable_step st req :
      reachable st → fresh_uuid req st → reachable (handle req st).

(** ** Vocabulary of the properties *)

(** A Post with this id exists. *)
Definition post_exists (id : string) (db : DB) : Prop :=
  ∃ p, p ∈ posts db ∧ Post.id p = id.

(** The store holds a Vote of the pair with this direction. *)
Definition holds_vote (id voterId : string) (ty : VoteType) (vs : list Vote.t) : Prop :=
  ∃ v, v ∈ vs ∧ is_vote_of id voterId v ∧ Vote.type v = ty.

(** The number of Vote rows of a pair. *)
Definition vote_rows (id voterId : string) (vs : list Vote.t) : nat :=
  length (filter (is_vote_of id voterId) vs).

(** Each (postId, voterId) pair has at most one Vote entry. *)
Definition votes_unique (vs : list Vote.t) : Prop :=
  ∀ id voterId, vote_rows id voterId vs ≤ 1.

(** The three ways the vote route rewrites [db.votes]. *)
Inductive vote_change (id voterId : string) (ty : VoteType) (now : string)
    (vs : list Vote.t) : list Vote.t → Prop :=
  | vote_off l1 v l2 :
      vs = l1 ++ v :: l2 → Forall (λ w, ¬ is_vote_of id voterId w) l1 →
      is_vote_of id voterId v → Vote.type v = ty →
      vote_change id voterId ty now vs (l1 ++ l2)
  | vote_switch l1 v l2 :
      vs = l1 ++ v :: l2 → Forall (λ w, ¬ is_vote_of id voterId w) l1 →
      is_vote_of id voterId v → Vote.type v ≠ ty →
      vote_change id voterId ty now vs (l1 ++ Vote.set_type ty v :: l2)
  | vote_insert :
      Forall (λ w, ¬ is_vote_of id voterId w) vs →
      vote_change id voterId ty now vs (vs ++ [Vote.mk id voterId ty now]).

(** The number of Bookmark rows of a pair. *)
Definition bookmark_rows (id userId : string) (bs : list Bookmark.t) : nat :=
  length (filter (is_bookmark_of id userId) bs).

(** The number of Posts carrying an id. *)
Definition post_rows (id : string) (ps : list Post.t) : nat :=
  length (filter (λ p, Post.id p = id) ps).

(** No Post, Comment, Vote or Bookmark of the store refers to the post. *)
Definition no_reference (id : string) (db : DB) : Prop :=
  Forall (λ p, Post.id p ≠ id) (posts db) ∧
  Forall (λ c, Comment.postId c ≠ id) (comments db) ∧
  Forall (λ v, Vote.postId v ≠ id) (votes db) ∧
  Forall (λ b, Bookmark.postId b ≠ id) (bookmarks db).


(** The key constraints of the data model: one Post per id, one Vote per
    (postId, voterId), one Bookmark per (postId, userId). *)
Definition store_wf (db : DB) : Prop :=
  (∀ id, post_rows id (posts db) ≤ 1) ∧
  votes_unique (votes db) ∧
  (∀ id userId, bookmark_rows id userId (bookmarks db) ≤ 1).

(** A run of the vote route: the arguments of each call, in order. *)
Module VoteCall.
Record t := mk {
  id : string;
  voterId : string;
  type : string;
  now : string }.
End VoteCall.

Definition castVotes (calls : list VoteCall.t) (db : DB) : DB :=
  foldl (λ db c, snd (castVote (VoteCall.id c) (VoteCall.voterId c)
                               (VoteCall.type c) (VoteCall.now c) db))
        db calls.

(** The answers of a run of the vote route, each call seeing the store the
    previous one left. *)
Fixpoint vote_answers (calls : list VoteCall.t) (db : DB)
    : list (Result VoteResponse.t) :=
  match calls with
  | [] => []
  | c :: calls =>
      let '(r, db') := castVote (VoteCall.id c) (VoteCall.voterId c)
                                (VoteCall.type c) (VoteCall.now c) db in
      r :: vote_answers calls db'
  end.

Definition tally_and_milestone (r : Result VoteResponse.t)
    : option (Z * option Milestone) :=
  match r with
  | Ok a => Some (VoteResponse.netVotes a, VoteResponse.milestone a)
  | Err _ => None
  end.

(** netVotes recomputed from scratch, in the words of the data model: the
    number of votes of the post with type up minus the number with type
    down, each counted in one pass over the Vote collection. *)
Definition tally (id : string) (ty : VoteType) (vs : list Vote.t) : nat :=
  length (filter (λ v, Vote.postId v = id ∧ Vote.type v = ty) vs).
Definition netVotes_from_scratch (id : string) (vs : list Vote.t) : Z :=
  (Z.of_nat (tally id up vs) - Z.of_nat (tally id down vs))%Z.


(** ** Stores used as examples *)

Definition post1 : Post.t :=
  Post.mk "p1" [104%N; 105%N] [] [] "alice" "2024-01-01T00:00:00.000Z" 0.
Definition post2 : Post.t :=
  Post.mk "p2" [121%N; 111%N] [] [] "bob" "2024-01-02T00:00:00.000Z" 3.

(** One post, one up-vote by bob. *)
Definition db_one_vote : DB :=
  mkDB [post1] [] [Vote.mk "p1" "bob" up "t1"] [] [].

(** A store with two Vote rows for the same pair. *)
Definition db_two_votes : DB :=
  mkDB [post1] [] [Vote.mk "p1" "bob" up "t1"; Vote.mk "p1" "bob" up "t2"] [] [].

(** One post with an up-vote from each of nine voters. *)
Definition nine_voters : list string :=
  ["v1"; "v2"; "v3"; "v4"; "v5"; "v6"; "v7"; "v8"; "v9"]%string.
Definition db_nine_up : DB :=
  mkDB [post1] [] ((λ u, Vote.mk "p1" u up "t1") <$> nine_voters) [] [].

(** A store with two Bookmark rows for the same pair. *)
Definition db_two_bookmarks : DB :=
  mkDB [post1] [] []
       [Bookmark.mk "p1" "bob" "t1"; Bookmark.mk "p1" "bob" "t2"] [].

(** Two posts by two owners, each with a comment, a vote and a bookmark. *)
Definition db_two_posts : DB :=
  mkDB [post1; post2]
       [Comment.mk "c1" "p1" [111%N; 107%N] "t3"; Comment.mk "c2" "p2" [110%N; 111%N] "t4"]
       [Vote.mk "p1" "bob" up "t5"; Vote.mk "p2" "alice" down "t6"]
       [Bookmark.mk "p1" "bob" "t7"; Bookmark.mk "p2" "alice" "t8"]
       [].

(** A store in which a second Post carries the id of the first. *)
Definition post1_again : Post.t :=
  Post.mk "p1" [50%N] [] [] "carol" "2024-01-03T00:00:00.000Z" 1.
Definition db_two_posts_one_id : DB :=
  mkDB [post1; post1_again] [] [] [] [].

(** Three posts in stored order p1, p2, p3, with net tallies 0, 1 and 0. *)
Definition post3 : Post.t :=
  Post.mk "p3" [51%N] [] [] "carol" "2024-01-03T00:00:00.000Z" 4.
Definition db_listing : DB :=
  mkDB [post1; post2; post3] []
       [Vote.mk "p1" "bob" up "t1"; Vote.mk "p1" "carol" down "t2";
        Vote.mk "p2" "alice" up "t3"]
       [] [].

(** * The rest of the server *)

(** ** Identity and admin access *)

(** [a || b] on strings that may be absent: a missing or empty [a] gives
    [b]. *)
Definition or_else (a : option jsstring) (b : jsstring) : jsstring :=
  match a with
  | Some (c :: s) => c :: s
  | _ => b
  end.

(** [[a-zA-Z0-9]] *)
Definition is_alnum (c : N) : bool :=
  (((48 <=? c) && (c <=? 57)) || ((65 <=? c) && (c <=? 90))
   || ((97 <=? c) && (c <=? 122)))%N.

(** ['unknown'] *)
Definition unknown : jsstring := [117; 110; 107; 110; 111; 119; 110]%N.

(** [getVoterId]: [ip] is [req.ip], [remoteAddress] the address of the
    connection, [ua] the user-agent header. The template string joins the
    two with ['-'] (code unit 45), [replace(/[^a-zA-Z0-9]/g, '')] keeps the
    alphanumeric code units, [slice(0, 64)] the first 64 of them. *)
Definition getVoterId (ip remoteAddress ua : option jsstring) : jsstring :=
  let ip := or_else ip (or_else remoteAddress unknown) in
  let ua := or_else ua [] in
  take 64 (filter (λ c, is_alnum c) (ip ++ [45%N] ++ ua)).

(** [s.startsWith(pat)], with what follows the prefix. *)
Fixpoint strip_prefix (pat s : jsstring) : option jsstring :=
  match pat, s with
  | [], _ => Some s
  | p :: pat', c :: s' => if decide (p = c) then strip_prefix pat' s' else None
  | _ :: _, [] => None
  end.

(** [s.replace(pat, '')] for a string pattern: the first occurrence of [pat]
    is cut out, a string without occurrence is returned as it is. *)
Fixpoint replace_first (pat s : jsstring) : jsstring :=
  match strip_prefix pat s with
  | Some rest => rest
  | None =>
      match s with
      | [] => []
      | c :: s' => c :: replace_first pat s'
      end
  end.

(** ['Bearer '] *)
Definition Bearer : jsstring := [66; 101; 97; 114; 101; 114; 32]%N.

(** [requireAdmin]: [true] when the request is handed on to the route,
    [false] when it is answered with 403. [auth] is the authorization
    header, [ADMIN_PASSWORD] the configured password. *)
Definition requireAdmin (ADMIN_PASSWORD : jsstring) (auth : option jsstring) : bool :=
  match auth with
  | None | Some [] => false
  | Some auth => bool_decide (replace_first Bearer auth = ADMIN_PASSWORD)
  end.

(** [app.post('/api/admin/login')]: the token of a successful login, [None]
    for the 401 answer. *)
Definition adminLogin (ADMIN_PASSWORD password : jsstring) : option jsstring :=
  if bool_decide (password = ADMIN_PASSWORD) then Some ADMIN_PASSWORD else None.

(** ** Trending and statistics *)

(** [hashtagCount[tag] = (hashtagCount[tag] || 0) + 1] on the object used as
    a counter. Its keys all start with [#], so [Object.entries] lists them
    in the order they were first written: the object is kept as the list of
    its entries, a known key is counted up where it stands and a new one is
    added at the end. *)
Fixpoint bump (tag : jsstring) (m : list (jsstring * nat)) : list (jsstring * nat) :=
  match m with
  | [] => [(tag, 1)]
  | (t, n) :: m' => if decide (t = tag) then (t, S n) :: m' else (t, n) :: bump tag m'
  end.

(** The two nested [forEach] of the hashtag route. *)
Definition hashtagCount (ps : list Post.t) : list (jsstring * nat) :=
  foldl (λ m post, foldl (λ m tag, bump tag m) m (extractHashtags (Post.content post)))
        [] ps.

(** [app.get('/api/trending/hashtags')]: the entries as [(tag, count)]. *)
Definition trendingHashtags (db : DB) : list (jsstring * nat) :=
  take 10 (sort (λ a b, (Z.of_nat (snd b) - Z.of_nat (snd a))%Z)
                (hashtagCount (posts db))).

(** [new Date(p.timestamp) > yesterday]. [Date_ms] is the reading of a
    timestamp as milliseconds since the epoch, [None] for a string [Date]
    cannot read (the comparison with NaN is false); [now] is the clock. *)
Definition is_recent (Date_ms : string → option Z) (now : Z) (p : Post.t) : Prop :=
  match Date_ms (Post.timestamp p) with
  | Some t => (now - 24 * 60 * 60 * 1000 < t)%Z
  | None => False
  end.

Global Instance is_recent_dec Date_ms now p : Decision (is_recent Date_ms now p).
Proof. unfold is_recent. destruct (Date_ms _); apply _. Defined.

(** [app.get('/api/trending')]: each post with its [netVotes]. *)
Definition trending (Date_ms : string → option Z) (now : Z) (db : DB)
    : list (Post.t * Z) :=
  take 5 (sort (λ a b, (snd b - snd a)%Z)
            ((λ post,
                let pv := postVotes (Post.id post) (votes db) in
                (post, (Z.of_nat (count_type up pv) - Z.of_nat (count_type down pv))%Z))
             <$> filter (is_recent Date_ms now) (posts db))).

Module Stats.
Record t := mk {
  postsCount : nat;
  votesCount : nat;
  bookmarksCount : nat;
  totalUpvotes : nat;
  karma : Z }.
End Stats.

(** The two [reduce] of the statistics route. *)
Definition total_votes (ty : VoteType) (userPosts : list Post.t) (vs : list Vote.t) : nat :=
  foldl (λ acc post, acc + count_type ty (postVotes (Post.id post) vs)) 0 userPosts.

(** [app.get('/api/stats')] *)
Definition userStats (voterId : string) (db : DB) : Stats.t :=
  let userPosts := filter (λ p, Post.ownerId p = voterId) (posts db) in
  let userVotes := filter (λ v, Vote.voterId v = voterId) (votes db) in
  let userBookmarks := filter (λ b, Bookmark.userId b = voterId) (bookmarks db) in
  let totalUpvotes := total_votes up userPosts (votes db) in
  let totalDownvotes := total_votes down userPosts (votes db) in
  Stats.mk (length userPosts) (length userVotes) (length userBookmarks)
           totalUpvotes (Z.of_nat totalUpvotes - Z.of_nat totalDownvotes)%Z.

Module AdminPost.
Record t := mk {
  post : Post.t;
  commentCount : nat;
  voteCount : nat;
  isBanned : bool }.
End AdminPost.

(** [app.get('/api/admin/posts')], after [requireAdmin]. *)
Definition adminPosts (banned : list string) (db : DB) : list AdminPost.t :=
  (λ post,
     AdminPost.mk post
       (length (filter (λ c, Comment.postId c = Post.id post) (comments db)))
       (length (filter (λ v, Vote.postId v = Post.id post) (votes db)))
       (bool_decide (Post.ownerId post ∈ banned)))
  <$> posts db.

(** The identity a request acts for at the ban gate; the admin requests
    do not pass the gate. *)
Definition caller_of (req : Request) : option string :=
  match req with
  | CreatePost caller _ _ _ _ _ _ | CastVote caller _ _ _
  | ToggleBookmark caller _ _ | AddComment caller _ _ _ _
  | SubmitReport caller _ _ _ _ | DeletePost caller _ => Some caller
  | AdminDeletePost _ | AdminBan _ _ | AdminUnban _ => None
  end.

(** Every Comment and every Vote refers to a stored Post. *)
Definition dependents_have_post (db : DB) : Prop :=
  Forall (λ c, post_exists (Comment.postId c) db) (comments db) ∧
  Forall (λ v, post_exists (Vote.postId v) db) (votes db).

(** What is stored as the text of a post or a comment: not empty, within the
    limit, and without white space at either end. *)
Definition stored_text (limit : nat) (s : jsstring) : Prop :=
  0 < length s ≤ limit ∧ trim s = s.

(** A string that does not begin, or does not end, with white space. *)
Definition starts_clean (s : jsstring) : Prop :=
  match s with
  | c :: _ => is_whitespace c = false
  | [] => True
  end.
Definition ends_clean (s : jsstring) : Prop := starts_clean (reverse s).

(** The texts of all stored posts and comments are well-formed. *)
Definition texts_stored (db : DB) : Prop :=
  Forall (λ p, stored_text 1000 (Post.content p)) (posts db) ∧
  Forall (λ c, stored_text 500 (Comment.content c)) (comments db).

(** The requests of a list handled one after the other. *)
Definition handle_all (reqs : list Request) (st : State) : State :=
  foldl (λ st req, handle req st) st reqs.

(** A lower-case word character: a digit, the underscore or [a-z]. *)
Definition is_lower_word (c : N) : bool :=
  (((48 <=? c) && (c <=? 57)) || (c =? 95) || ((97 <=? c) && (c <=? 122)))%N.

(** The count an entry list gives a tag. *)
Definition count_of (tag : jsstring) (m : list (jsstring * nat)) : nat :=
  sum_list (snd <$> filter (λ e, fst e = tag) m).

(** The number of posts among whose hashtags the tag is. *)
Definition posts_with_tag (tag : jsstring) (ps : list Post.t) : nat :=
  length (filter (λ p, tag ∈ extractHashtags (Post.content p)) ps).

(** A reading of timestamps for the examples: the timestamp is the decimal
    number of milliseconds, one digit long. *)
Definition digit_ms (ts : string) : option Z :=
  match ts with
  | String c EmptyString =>
      let n := Z.of_N (Ascii.N_of_ascii c) in
      if bool_decide (48 ≤ n ≤ 57)%Z then Some (n - 48)%Z else None
  | _ => None
  end.

(** Posts stamped 1 ms, 5 ms and with an unreadable time, the second with an
    up-vote. *)
Definition db_stamped : DB :=
  mkDB [Post.mk "a" [104%N] [] [] "alice" "1" 0;
        Post.mk "b" [105%N] [] [] "bob" "5" 0;
        Post.mk "c" [106%N] [] [] "bob" "soon" 0]
       [] [Vote.mk "b" "alice" up "6"] [] [].

(** The sum of a list of integers. *)
Definition sumZ (l : list Z) : Z := foldr Z.add 0%Z l.

(** The entries of the listing that the viewer owns. *)
Definition own_entries (voterId : string) (db : DB) : list PostView.t :=
  filter (λ a, PostView.isOwner a = true) (listPosts voterId db).

(** ['admin123'], the default password. *)
Definition admin123 : jsstring := [97; 100; 109; 105; 110; 49; 50; 51]%N.

(** Posts with the contents ["#a #B"], ["#b"] and ["#A #b ##"]. *)
Definition db_tagged : DB :=
  mkDB [Post.mk "a" [35; 97; 32; 35; 66]%N [] [] "alice" "1" 0;
        Post.mk "b" [35; 98]%N [] [] "bob" "2" 0;
        Post.mk "c" [35; 65; 32; 35; 98; 32; 35; 35]%N [] [] "bob" "3" 0]
       [] [] [] [].

(** * Properties *)

(** ** Arrays: the first match and what surrounds it *)

Section first_match.
Context {A : Type} (P : A → Prop) `{!∀ x, Decision (P x)}.

(** [findIndex] returning [i] cuts the array in three: a prefix without a
    match, the match, and the rest. *)
Lemma list_find_split (l : list A) i x :
  list_find P l = Some (i, x) →
  ∃ l1 l2, l = l1 ++ x :: l2 ∧ length l1 = i ∧ Forall (λ y, ¬ P y) l1 ∧ P x.
Proof.
  intros (Hi & HP & Hbefore)%list_find_Some.
  exists (take i l), (drop (S i) l). split_and!.
  - by rewrite take_drop_middle.
  - apply length_take_le. apply lookup_lt_Some in Hi. lia.
  - apply Forall_lookup. intros j y Hj.
    pose proof (lookup_lt_Some _ _ _ Hj) as Hlen.
    rewrite length_take in Hlen.
    rewrite lookup_take_lt in Hj by lia.
    apply (Hbefore j y Hj). lia.
  - done.
Qed.

Lemma filter_none (l : list A) : Forall (λ y, ¬ P y) l → filter P l = [].
Proof.
  induction 1 as [|y l Hy _ IH]; [done|]. by rewrite filter_cons_False.
Qed.

Lemma filter_nil_none (l : list A) : filter P l = [] → Forall (λ y, ¬ P y) l.
Proof.
  intros Hnil. apply Forall_forall. intros y Hy HP.
  by apply (filter_nil_not_elem_of P l y).
Qed.

Lemma filter_all (l : list A) : Forall P l → filter P l = l.
Proof.
  induction 1 as [|y l Hy _ IH]; [done|]. by rewrite filter_cons_True, IH.
Qed.

Lemma list_find_none_filter (l : list A) : list_find P l = None → filter P l = [].
Proof. intros Hnone%list_find_None. by apply filter_none. Qed.

(** When the array holds at most one match, nothing after the first match
    matches either. *)
Lemma at_most_one_rest (l1 l2 : list A) x :
  P x → length (filter P (l1 ++ x :: l2)) ≤ 1 → Forall (λ y, ¬ P y) l2.
Proof.
  intros HP Hlen. apply filter_nil_none.
  rewrite filter_app, filter_cons_True, length_app in Hlen by done.
  simpl in Hlen. destruct (filter P l2); [done|simpl in Hlen; lia].
Qed.

Lemma list_find_middle (l1 l2 : list A) x :
  Forall (λ y, ¬ P y) l1 → P x →
  list_find P (l1 ++ x :: l2) = Some (length l1, x).
Proof.
  intros Hl1 HP. apply list_find_Some. split_and!; [|done|].
  - by rewrite list_lookup_middle.
  - intros j y Hj Hlt. rewrite lookup_app_l in Hj by done.
    by eapply Forall_lookup_1 in Hl1.
Qed.

Lemma list_find_not_found (l : list A) :
  Forall (λ y, ¬ P y) l → list_find P l = None.
Proof. intros. by apply list_find_None. Qed.
End first_match.

Lemma alter_middle {A} (f : A → A) (l1 l2 : list A) x :
  alter f (length l1) (l1 ++ x :: l2) = l1 ++ f x :: l2.
Proof.
  replace (length l1) with (length l1 + 0) by lia. by rewrite alter_app_r.
Qed.

(** ** Vote ledger *)

Lemma post_exists_find id db :
  post_exists id db ↔ is_Some (list_find (λ p, Post.id p = id) (posts db)).
Proof.
  split.
  - intros (p & Hin & Hid). by eapply list_find_elem_of.
  - intros [[i p] (Hi & Hid & _)%list_find_Some].
    exists p. split; [by eapply list_elem_of_lookup_2|done].
Qed.

Lemma parseType_up_down type ty :
  parseType type = Some ty ↔
  (type = "up"%string ∧ ty = up) ∨ (type = "down"%string ∧ ty = down).
Proof.
  unfold parseType.
  destruct (decide (type = "up"%string)) as [->|Hup].
  { split; [intros [= <-]; by left|intros [[_ ->]|[? _]]; [done|discriminate]]. }
  rewrite (bool_decide_eq_false_2 _ Hup).
  destruct (decide (type = "down"%string)) as [->|Hdown].
  { split; [intros [= <-]; by right|intros [[? _]|[_ ->]]; [discriminate|done]]. }
  rewrite (bool_decide_eq_false_2 _ Hdown).
  split; [discriminate|intros [[? _]|[? _]]; contradiction].
Qed.

Lemma is_vote_of_set_type id voterId ty v :
  is_vote_of id voterId (Vote.set_type ty v) ↔ is_vote_of id voterId v.
Proof. by destruct v. Qed.

Lemma apply_vote_change id voterId ty now vs :
  vote_change id voterId ty now vs (apply_vote id voterId ty now vs).
Proof.
  unfold apply_vote.
  destruct (list_find _ vs) as [[i v]|] eqn:Hfind.
  - apply list_find_split in Hfind as (l1 & l2 & -> & <- & Hl1 & Hv).
    case_bool_decide.
    + rewrite delete_middle. by eapply vote_off.
    + rewrite alter_middle. by eapply vote_switch.
  - apply vote_insert. by apply list_find_None in Hfind.
Qed.

Lemma castVote_ok id voterId type ty now db :
  parseType type = Some ty → post_exists id db →
  castVote id voterId type now db =
    (let vs := apply_vote id voterId ty now (votes db) in
     let netVotes := net_of id vs in
     (Ok (VoteResponse.mk (count_type up (postVotes id vs))
            (count_type down (postVotes id vs)) netVotes (milestone_of netVotes)
            (Vote.type ∘ snd <$> list_find (is_vote_of id voterId) vs)),
      set_votes vs db)).
Proof.
  intros Hty [[i p] Hp]%post_exists_find. unfold castVote. by rewrite Hty, Hp.
Qed.

Lemma castVote_inv id voterId type now db r db' :
  castVote id voterId type now db = (Ok r, db') →
  ∃ ty, parseType type = Some ty ∧ post_exists id db ∧
        db' = set_votes (apply_vote id voterId ty now (votes db)) db ∧
        VoteResponse.netVotes r = net_of id (votes db') ∧
        VoteResponse.milestone r = milestone_of (VoteResponse.netVotes r).
Proof.
  unfold castVote. destruct (parseType type) as [ty|] eqn:Hty; [|done].
  destruct (list_find _ (posts db)) as [ip|] eqn:Hp; [|done].
  intros [= <- <-]. exists ty. split_and!; try done.
  apply post_exists_find. by rewrite Hp.
Qed.

Lemma castVote_err id voterId type now db f db' :
  castVote id voterId type now db = (Err f, db') → db' = db.
Proof.
  unfold castVote. destruct (parseType type); [|congruence].
  destruct (list_find _ (posts db)); [done|congruence].
Qed.

(** A single match in an array is its first match. *)
Lemma single_match {A} (P : A → Prop) `{!∀ x, Decision (P x)} (l1 l2 : list A) x y :
  Forall (λ z, ¬ P z) l1 → Forall (λ z, ¬ P z) l2 →
  y ∈ l1 ++ x :: l2 → P y → y = x.
Proof.
  intros Hl1 Hl2 Hin Hy.
  apply elem_of_app in Hin as [Hin|Hin].
  - by eapply Forall_forall in Hl1.
  - apply elem_of_cons in Hin as [->|Hin]; [done|].
    by eapply Forall_forall in Hl2.
Qed.

(** C1: on a store of the data model, where a (postId, voterId) pair has at
    most one Vote (only the pair of the call is asked for here; every store
    the server reaches has it, see [reachable_wf]): when a Post with the id
    exists and the direction is ['up'] or ['down'], the vote route answers
    with success, leaves the votes of every other pair as they are, and: a
    held Vote with the same direction is removed and [userVote] is null; a
    held Vote with the other direction has its direction overwritten where
    it stands, without a second row, and [userVote] is the requested
    direction; with no Vote held, the new Vote is appended and [userVote] is
    the requested direction. *)
Theorem castVote_toggle id voterId type ty now db :
  parseType type = Some ty →
  post_exists id db →
  vote_rows id voterId (votes db) ≤ 1 →
  ∃ r db',
    castVote id voterId type now db = (Ok r, db') ∧
    filter (λ v, ¬ is_vote_of id voterId v) (votes db')
      = filter (λ v, ¬ is_vote_of id voterId v) (votes db) ∧
    (holds_vote id voterId ty (votes db) →
       filter (is_vote_of id voterId) (votes db') = [] ∧
       length (votes db') + 1 = length (votes db) ∧
       VoteResponse.userVote r = None) ∧
    (∀ v, v ∈ votes db → is_vote_of id voterId v → Vote.type v ≠ ty →
       (∃ l1 l2, votes db = l1 ++ v :: l2 ∧
                 votes db' = l1 ++ Vote.set_type ty v :: l2) ∧
       filter (is_vote_of id voterId) (votes db') = [Vote.set_type ty v] ∧
       VoteResponse.userVote r = Some ty) ∧
    (filter (is_vote_of id voterId) (votes db) = [] →
       votes db' = votes db ++ [Vote.mk id voterId ty now] ∧
       VoteResponse.userVote r = Some ty).
Proof.
  intros Hty Hpost Hone. rewrite (castVote_ok _ _ _ ty) by done. cbn zeta.
  eexists _, _. split; [done|]. cbn [snd votes set_votes VoteResponse.userVote].
  unfold vote_rows in Hone.
  destruct (apply_vote_change id voterId ty now (votes db))
    as [l1 v l2 Hvs Hl1 Hv Hsame|l1 v l2 Hvs Hl1 Hv Hdiff|Hnone].
  - (* toggle off *)
    rewrite Hvs in *.
    pose proof (at_most_one_rest _ _ _ _ Hv Hone) as Hl2.
    split_and!.
    + rewrite !filter_app, filter_cons_False; [done|tauto].
    + intros _. split_and!.
      * by rewrite filter_app, !filter_none.
      * rewrite !length_app. simpl. lia.
      * rewrite list_find_not_found; [done|]. by apply Forall_app.
    + intros w Hw Hpw Hneq.
      by rewrite (single_match _ _ _ _ _ Hl1 Hl2 Hw Hpw) in Hneq.
    + rewrite filter_app, filter_cons_True by done.
      intros [_ [=]]%app_eq_nil.
  - (* switch *)
    rewrite Hvs in *.
    pose proof (at_most_one_rest _ _ _ _ Hv Hone) as Hl2.
    assert (is_vote_of id voterId (Vote.set_type ty v)) as Hv'
      by by apply is_vote_of_set_type.
    split_and!.
    + rewrite !filter_app, !filter_cons_False; [done|tauto..].
    + intros (w & Hw & Hpw & Heq).
      by rewrite (single_match _ _ _ _ _ Hl1 Hl2 Hw Hpw) in Heq.
    + intros w Hw Hpw _.
      rewrite (single_match _ _ _ _ _ Hl1 Hl2 Hw Hpw). split_and!.
      * by exists l1, l2.
      * by rewrite filter_app, filter_cons_True, !filter_none.
      * by rewrite list_find_middle.
    + rewrite filter_app, filter_cons_True by done.
      intros [_ [=]]%app_eq_nil.
  - (* insert *)
    assert (is_vote_of id voterId (Vote.mk id voterId ty now)) as Hnew by done.
    split_and!.
    + rewrite filter_app, filter_cons_False, app_nil_r; [done|tauto].
    + intros (w & Hw & Hpw & _). by eapply Forall_forall in Hnone.
    + intros w Hw Hpw _. by eapply Forall_forall in Hnone.
    + intros _. split; [done|].
      by rewrite list_find_middle.
Qed.

Lemma post1_exists vs cs bs rs : post_exists "p1" (mkDB [post1] cs vs bs rs).
Proof. exists post1. split; [apply list_elem_of_here|reflexivity]. Defined.

Lemma castVote_toggle_witness :
  ∃ r db', castVote "p1" "bob" "up" "t2" db_one_vote = (Ok r, db') ∧
           votes db' = [] ∧ VoteResponse.userVote r = None.
Proof.
  assert (parseType "up" = Some up) as Hty by reflexivity.
  assert (vote_rows "p1" "bob" (votes db_one_vote) ≤ 1) as Hone
    by (vm_compute; lia).
  destruct (castVote_toggle "p1" "bob" "up" up "t2" db_one_vote Hty
              (post1_exists _ _ _ _) Hone)
    as (r & db' & Hcall & _ & Hoff & _).
  exists r, db'. split; [exact Hcall|].
  injection Hcall as <- <-. split; reflexivity.
Defined.

(** Outside the data model, on a [db.json] edited by hand to hold a second
    Vote row of the pair, the route works on the first row it meets: the
    toggle-off removes that row and the answer's [userVote] is the direction
    of the row that is left. The server never writes such a store, see
    [malformed_unreachable]. *)
Lemma castVote_toggle_off_second_row :
  post_exists "p1" db_two_votes ∧
  parseType "up" = Some up ∧
  holds_vote "p1" "bob" up (votes db_two_votes) ∧
  ∃ r db', castVote "p1" "bob" "up" "t3" db_two_votes = (Ok r, db') ∧
           votes db' = [Vote.mk "p1" "bob" up "t2"] ∧
           VoteResponse.userVote r = Some up ∧
           VoteResponse.userVote r ≠ None.
Proof.
  split_and!.
  - apply post1_exists.
  - reflexivity.
  - exists (Vote.mk "p1" "bob" up "t1"). split_and!; [apply list_elem_of_here|done..].
  - eexists _, _. split; [reflexivity|]. split_and!; [reflexivity..|discriminate].
Qed.

(** *** Counting rows and tallies *)

Lemma vote_rows_cons id voterId v vs :
  vote_rows id voterId (v :: vs) =
  (if decide (is_vote_of id voterId v) then 1 else 0) + vote_rows id voterId vs.
Proof. unfold vote_rows. rewrite filter_cons. by case_decide. Qed.

Lemma vote_rows_app id voterId vs1 vs2 :
  vote_rows id voterId (vs1 ++ vs2) = vote_rows id voterId vs1 + vote_rows id voterId vs2.
Proof. unfold vote_rows. by rewrite filter_app, length_app. Qed.

Lemma vote_rows_none id voterId vs :
  Forall (λ w, ¬ is_vote_of id voterId w) vs → vote_rows id voterId vs = 0.
Proof. intros Hnone. unfold vote_rows. by rewrite filter_none. Qed.

(** The code's two-stage count is the one-pass count of the data model. *)
Lemma count_type_tally id ty vs : count_type ty (postVotes id vs) = tally id ty vs.
Proof.
  unfold count_type, postVotes, tally. rewrite list_filter_filter.
  f_equal. apply list_filter_iff. tauto.
Qed.

Lemma net_of_from_scratch id vs : net_of id vs = netVotes_from_scratch id vs.
Proof. unfold net_of, netVotes_from_scratch. by rewrite !count_type_tally. Qed.





(** *** One vote at a time *)

Lemma vote_change_rows id voterId ty now vs vs' id' voterId' :
  vote_change id voterId ty now vs vs' →
  vote_rows id' voterId' vs ≤ 1 →
  vote_rows id' voterId' vs' ≤ 1.
Proof.
  intros [l1 v l2 -> Hl1 Hv Hsame|l1 v l2 -> Hl1 Hv Hdiff|Hnone].
  - rewrite !vote_rows_app, vote_rows_cons. lia.
  - rewrite !vote_rows_app, !vote_rows_cons.
    destruct (decide (is_vote_of id' voterId' v)) as [Hm|Hm].
    + rewrite decide_True by by apply is_vote_of_set_type. done.
    + rewrite decide_False by by rewrite is_vote_of_set_type. done.
  - rewrite vote_rows_app, vote_rows_cons. unfold vote_rows at 3. simpl.
    case_decide as Hm; [|lia].
    destruct Hm as [<- <-]. simpl. rewrite vote_rows_none by done. lia.
Qed.

Lemma apply_vote_unique id voterId ty now vs :
  votes_unique vs → votes_unique (apply_vote id voterId ty now vs).
Proof.
  intros Huniq id' voterId'.
  eapply vote_change_rows; [apply apply_vote_change|apply Huniq].
Qed.

Lemma castVote_unique id voterId type now db :
  votes_unique (votes db) →
  votes_unique (votes (snd (castVote id voterId type now db))).
Proof.
  intros Huniq. unfold castVote.
  destruct (parseType type) as [ty|]; [|done].
  destruct (list_find _ (posts db)); [|done].
  by apply apply_vote_unique.
Qed.

Lemma castVotes_unique calls db :
  votes_unique (votes db) → votes_unique (votes (castVotes calls db)).
Proof.
  revert db. induction calls as [|c calls IH]; intros db Huniq; [done|].
  apply IH. by apply castVote_unique.
Qed.


(** C2: on a store where each (postId, voterId) pair has at most one Vote
    entry, any sequence of calls of the vote route leaves a store with at
    most one entry per pair; the net tally the code computes over it is the
    number of up votes minus the number of down votes of the post in the
    Vote collection, and so is the [netVotes] of every answer. *)
Theorem castVote_preserves_votes_unique db calls :
  votes_unique (votes db) →
  votes_unique (votes (castVotes calls db)) ∧
  (∀ id, net_of id (votes (castVotes calls db))
         = netVotes_from_scratch id (votes (castVotes calls db))) ∧
  (∀ id voterId type now r db',
     castVote id voterId type now (castVotes calls db) = (Ok r, db') →
     votes_unique (votes db') ∧
     VoteResponse.netVotes r = netVotes_from_scratch id (votes db')).
Proof.
  intros Huniq. pose proof (castVotes_unique calls db Huniq) as Hrun.
  split_and!; [done|intros; apply net_of_from_scratch|].
  intros id voterId type now r db' Hcall.
  pose proof (castVote_unique id voterId type now _ Hrun) as Hnext.
  rewrite Hcall in Hnext. split; [done|].
  apply castVote_inv in Hcall as (ty & _ & _ & _ & -> & _).
  apply net_of_from_scratch.
Qed.

Lemma votes_unique_nil : votes_unique [].
Proof. intros id voterId. unfold vote_rows. simpl. lia. Defined.

Lemma castVote_preserves_votes_unique_witness :
  let calls := [VoteCall.mk "p1" "bob" "up" "t1"; VoteCall.mk "p1" "bob" "down" "t2";
                VoteCall.mk "p1" "bob" "up" "t3"] in
  let db := mkDB [post1] [] [] [] [] in
  votes (castVotes calls db) = [Vote.mk "p1" "bob" up "t1"] ∧
  votes_unique (votes (castVotes calls db)).
Proof.
  intros calls db. split; [reflexivity|].
  exact (proj1 (castVote_preserves_votes_unique db calls votes_unique_nil)).
Defined.

(** *** Milestones *)

Lemma milestone_of_Some n :
  is_Some (milestone_of n) ↔ n = 10%Z ∨ n = 50%Z ∨ n = 100%Z.
Proof.
  unfold milestone_of.
  destruct (decide (n = 100%Z)) as [->|H100]; [split; eauto|].
  rewrite (bool_decide_eq_false_2 _ H100).
  destruct (decide (n = 50%Z)) as [->|H50]; [split; eauto|].
  rewrite (bool_decide_eq_false_2 _ H50).
  destruct (decide (n = 10%Z)) as [->|H10]; [split; eauto|].
  rewrite (bool_decide_eq_false_2 _ H10).
  split; [by intros [m Hm]|tauto].
Qed.

Lemma milestone_of_None n :
  milestone_of n = None ↔ n ≠ 10%Z ∧ n ≠ 50%Z ∧ n ≠ 100%Z.
Proof.
  rewrite eq_None_not_Some, milestone_of_Some. tauto.
Qed.


(** The scenario on a post with nine up-votes: the tenth voter brings it to
    10 (milestone), an eleventh to 11 (none), the eleventh withdraws and the
    post is back at 10 (milestone), the tenth withdraws, 9 (none), and votes
    again, 10 (milestone). *)
Lemma milestone_scenario :
  net_of "p1" (votes db_nine_up) = 9%Z ∧
  tally_and_milestone <$> vote_answers
    [VoteCall.mk "p1" "v10" "up" "t"; VoteCall.mk "p1" "v11" "up" "t";
     VoteCall.mk "p1" "v11" "up" "t"; VoteCall.mk "p1" "v10" "up" "t";
     VoteCall.mk "p1" "v10" "up" "t"] db_nine_up
  = [Some (10%Z, Some HotPost); Some (11%Z, None); Some (10%Z, Some HotPost);
     Some (9%Z, None); Some (10%Z, Some HotPost)].
Proof. split; vm_compute; reflexivity. Qed.


(** ** Bookmark ledger *)

Lemma isBookmarked_true id userId bs :
  isBookmarked id userId bs = true ↔ ∃ b, b ∈ bs ∧ is_bookmark_of id userId b.
Proof. unfold isBookmarked. by rewrite bool_decide_eq_true, Exists_exists. Qed.

Lemma isBookmarked_none id userId bs :
  Forall (λ b, ¬ is_bookmark_of id userId b) bs → isBookmarked id userId bs = false.
Proof.
  intros Hnone. apply not_true_is_false.
  intros (b & Hb & Hm)%isBookmarked_true. by eapply Forall_forall in Hnone.
Qed.

Lemma isBookmarked_middle id userId l1 b l2 :
  is_bookmark_of id userId b → isBookmarked id userId (l1 ++ b :: l2) = true.
Proof.
  intros Hb. apply isBookmarked_true. exists b. split; [|done].
  apply elem_of_app. right. apply list_elem_of_here.
Qed.

(** C6: on a store of the data model, where a (postId, userId) pair has at
    most one Bookmark (only the pair of the call is asked for here; every
    store the server reaches has it, see [reachable_wf]), the bookmark route
    deletes the Bookmark and answers [bookmarked: false] when one exists,
    appends one and answers [bookmarked: true] otherwise;
    the bookmarks of every other pair are left as they are; and a second
    call with the same arguments answers the opposite flag and brings the
    pair back to the state, bookmarked or not, it had before the first. *)
Theorem toggleBookmark_involution id userId now now' db :
  bookmark_rows id userId (bookmarks db) ≤ 1 →
  ∃ b db1 db2,
    toggleBookmark id userId now db = (Ok b, db1) ∧
    toggleBookmark id userId now' db1 = (Ok (negb b), db2) ∧
    b = negb (isBookmarked id userId (bookmarks db)) ∧
    isBookmarked id userId (bookmarks db1) = b ∧
    (b = false → bookmark_rows id userId (bookmarks db1) = 0) ∧
    (b = true → bookmarks db1 = bookmarks db ++ [Bookmark.mk id userId now]) ∧
    filter (λ x, ¬ is_bookmark_of id userId x) (bookmarks db1)
      = filter (λ x, ¬ is_bookmark_of id userId x) (bookmarks db) ∧
    isBookmarked id userId (bookmarks db2) = isBookmarked id userId (bookmarks db) ∧
    bookmark_rows id userId (bookmarks db2) = bookmark_rows id userId (bookmarks db) ∧
    filter (λ x, ¬ is_bookmark_of id userId x) (bookmarks db2)
      = filter (λ x, ¬ is_bookmark_of id userId x) (bookmarks db).
Proof.
  intros Hone. unfold bookmark_rows in *. unfold toggleBookmark at 1.
  destruct (list_find _ (bookmarks db)) as [[i b]|] eqn:Hfind.
  - (* bookmarked: the row is deleted, the second call appends a new one *)
    apply list_find_split in Hfind as (l1 & l2 & Hbs & <- & Hl1 & Hb).
    rewrite Hbs in *. rewrite delete_middle.
    pose proof (at_most_one_rest _ _ _ _ Hb Hone) as Hl2.
    assert (Forall (λ x, ¬ is_bookmark_of id userId x) (l1 ++ l2)) as Hl12
      by by apply Forall_app.
    eexists false, _, _. split; [done|]. unfold toggleBookmark.
    cbn [bookmarks set_bookmarks]. rewrite (list_find_not_found _ _ Hl12).
    split; [done|]. cbn [bookmarks set_bookmarks].
    assert (is_bookmark_of id userId (Bookmark.mk id userId now')) as Hnew by done.
    split_and!.
    + by rewrite isBookmarked_middle.
    + by apply isBookmarked_none.
    + intros _. by rewrite filter_none.
    + done.
    + rewrite !filter_app, filter_cons_False; [done|tauto].
    + by rewrite !isBookmarked_middle.
    + rewrite !filter_app, !filter_cons_True, !filter_none by done. done.
    + rewrite !filter_app, !filter_cons_False; [|tauto..].
      by rewrite filter_nil, app_nil_r.
  - (* not bookmarked: a row is appended, the second call deletes it *)
    apply list_find_None in Hfind.
    assert (is_bookmark_of id userId (Bookmark.mk id userId now)) as Hnew by done.
    eexists true, _, _. split; [done|]. unfold toggleBookmark.
    cbn [bookmarks set_bookmarks]. rewrite list_find_middle by done.
    rewrite delete_middle, app_nil_r. split; [done|]. cbn [bookmarks set_bookmarks].
    split_and!; try done.
    + by rewrite isBookmarked_none.
    + by apply isBookmarked_middle.
    + rewrite filter_app, filter_cons_False; [|tauto].
      by rewrite filter_nil, app_nil_r.
Qed.

Lemma toggleBookmark_involution_witness :
  ∃ db1 db2,
    toggleBookmark "p1" "bob" "t1" db_one_vote = (Ok true, db1) ∧
    toggleBookmark "p1" "bob" "t2" db1 = (Ok false, db2) ∧
    db2 = db_one_vote.
Proof.
  assert (bookmark_rows "p1" "bob" (bookmarks db_one_vote) ≤ 1) as Hone
    by (vm_compute; lia).
  destruct (toggleBookmark_involution "p1" "bob" "t1" "t2" db_one_vote Hone)
    as (b & db1 & db2 & H1 & H2 & _).
  exists db1, db2.
  injection H1 as <- <-. injection H2 as <-.
  split_and!; reflexivity.
Defined.

(** Outside the data model, on a [db.json] edited by hand to hold two
    Bookmark rows of the pair, each call deletes one row and answers
    [bookmarked: false]. The server never writes such a store, see
    [malformed_unreachable]. *)
Lemma toggleBookmark_twice_second_row :
  isBookmarked "p1" "bob" (bookmarks db_two_bookmarks) = true ∧
  ∃ db1 db2,
    toggleBookmark "p1" "bob" "t3" db_two_bookmarks = (Ok false, db1) ∧
    isBookmarked "p1" "bob" (bookmarks db1) = true ∧
    toggleBookmark "p1" "bob" "t4" db1 = (Ok false, db2) ∧
    isBookmarked "p1" "bob" (bookmarks db2) = false.
Proof.
  split; [reflexivity|]. eexists _, _. split_and!; reflexivity.
Qed.

(** C10: the bookmark route never looks the post up. It always answers with
    success, also behind the ban gate it is never a NotFound; and for an id
    that matches no Post and a pair without Bookmark it appends a Bookmark
    carrying that id and answers [bookmarked: true], so that the store then
    holds a Bookmark whose post does not exist. On the empty database this
    happens for any id. *)
Theorem toggleBookmark_no_post_check id userId now db :
  (∃ b db', toggleBookmark id userId now db = (Ok b, db') ∧ posts db' = posts db) ∧
  (∀ banned, fst (checkBan userId banned (toggleBookmark id userId now) db)
             ≠ Err NotFound) ∧
  (¬ post_exists id db → isBookmarked id userId (bookmarks db) = false →
     ∃ db', toggleBookmark id userId now db = (Ok true, db') ∧
            Bookmark.mk id userId now ∈ bookmarks db' ∧
            ¬ post_exists id db') ∧
  (∃ db', toggleBookmark id userId now initializeDB = (Ok true, db') ∧
          bookmarks db' = [Bookmark.mk id userId now] ∧ ¬ post_exists id db').
Proof.
  split_and!.
  - unfold toggleBookmark. destruct (list_find _ _) as [[i b]|]; eauto.
  - intros banned. unfold checkBan, toggleBookmark. case_bool_decide; [done|].
    by destruct (list_find _ _) as [[i b]|].
  - intros Hpost Hnot. unfold toggleBookmark.
    destruct (list_find _ _) as [[i b]|] eqn:Hfind.
    + apply list_find_Some in Hfind as (Hi & Hb & _).
      assert (isBookmarked id userId (bookmarks db) = true) as Htrue; [|congruence].
      apply isBookmarked_true. exists b. split; [by eapply list_elem_of_lookup_2|done].
    + eexists. split; [done|]. split; [|done].
      cbn. apply elem_of_app. right. apply list_elem_of_here.
  - eexists. split; [done|]. split; [done|].
    intros (p & Hp & _). cbn in Hp. by apply elem_of_nil in Hp.
Qed.

(** ** Deletion *)

Lemma filter_filter_same {A} (P : A → Prop) `{!∀ x, Decision (P x)} (l : list A) :
  filter P (filter P l) = filter P l.
Proof.
  apply filter_all, Forall_forall. by intros x [Hx _]%list_elem_of_filter.
Qed.






(** Outside the data model, on a [db.json] edited by hand so that two Posts
    carry one id, the admin route's [splice(postIndex, 1)] removes the first
    and the second stays, while the owner's route, which filters, removes
    both. The server never writes such a store, see
    [malformed_unreachable]. *)
Lemma adminDeletePost_second_post :
  post_exists "p1" db_two_posts_one_id ∧
  (∃ fs db', adminDeletePost "p1" db_two_posts_one_id = (Ok fs, db') ∧
             posts db' = [post1_again] ∧ Post.id post1_again = "p1"%string ∧
             ¬ no_reference "p1" db') ∧
  (∃ fs db', deletePost "p1" "alice" db_two_posts_one_id = (Ok fs, db') ∧
             posts db' = []).
Proof.
  split_and!.
  - exists post1. split; [apply list_elem_of_here|reflexivity].
  - eexists _, _. split; [reflexivity|]. split_and!; [reflexivity..|].
    intros (Hposts & _). cbn in Hposts. by apply Forall_cons_1 in Hposts as [? _].
  - eexists _, _. split; reflexivity.
Qed.

(** ** Ban list *)

(** Looked up in the array from which the posts of the banned identity are
    already gone, no comment or vote is ever found to hang on such a post. *)
Lemma ban_keeps_always ps voterId postId :
  ban_keeps (filter (λ p, Post.ownerId p ≠ voterId) ps) voterId postId = true.
Proof.
  unfold ban_keeps.
  destruct (list_find _ _) as [[i post]|] eqn:Hfind; [|done].
  apply list_find_Some in Hfind as (Hi & _ & _).
  apply list_elem_of_lookup_2, list_elem_of_filter in Hi as [Howner _].
  by apply bool_decide_eq_true.
Qed.

(** The ban route with [deletePosts] set: the identity joins the ban list
    (once), its posts go, the posts of the others stay, and the comment and
    vote collections come out exactly as they went in. *)
Lemma banIdentity_cascade voterId banned db :
  voterId ≠ EmptyString →
  ∃ banned' db',
    banIdentity voterId true banned db = (Ok (), (banned', db')) ∧
    voterId ∈ banned' ∧
    (voterId ∈ banned → banned' = banned) ∧
    posts db' = filter (λ p, Post.ownerId p ≠ voterId) (posts db) ∧
    comments db' = comments db ∧
    votes db' = votes db ∧
    bookmarks db' = bookmarks db.
Proof.
  intros Hid. unfold banIdentity. rewrite bool_decide_eq_false_2 by done.
  eexists _, _. split; [done|]. cbn. split_and!; try done.
  - case_bool_decide; [done|]. apply elem_of_app. right. apply list_elem_of_here.
  - intros Hin. by rewrite bool_decide_eq_true_2.
  - apply filter_all, Forall_forall. intros c _.
    rewrite ban_keeps_always. done.
  - apply filter_all, Forall_forall. intros v _.
    rewrite ban_keeps_always. done.
Qed.

(** C4, at the failing input: alice owns post p1, which has a comment and a
    vote. Banning alice with [deletePosts] removes p1 and keeps bob's p2, but
    the comment and the vote on p1 are still in the store, now without a
    post. The owner's deletion of p1 removes them. *)
Theorem banIdentity_leaves_dependents :
  ∃ db',
    banIdentity "alice" true [] db_two_posts = (Ok (), (["alice"%string], db')) ∧
    posts db' = [post2] ∧
    ¬ post_exists "p1" db' ∧
    Comment.mk "c1" "p1" [111%N; 107%N] "t3" ∈ comments db' ∧
    Vote.mk "p1" "bob" up "t5" ∈ votes db' ∧
    ¬ no_reference "p1" db' ∧
    no_reference "p1" (snd (deletePost "p1" "alice" db_two_posts)).
Proof.
  eexists. split; [reflexivity|]. cbn [posts comments votes]. split_and!.
  - reflexivity.
  - intros (p & Hp & Hid). apply list_elem_of_singleton in Hp as ->. discriminate.
  - apply list_elem_of_here.
  - apply list_elem_of_here.
  - intros (_ & Hc & _). cbn in Hc. by apply Forall_cons_1 in Hc as [? _].
  - cbn. unfold no_reference. cbn.
    split_and!; repeat constructor; discriminate.
Qed.

(** ** Creation and reports *)

(** C8: a post whose content is empty once trimmed, or longer than 1000 code
    units, is answered with InvalidArgument (400) and the store on disk is
    the one that was read: nothing is added, nothing is touched. Behind the
    ban gate the answer is the same for a caller who is not banned, and the
    store is untouched for every caller. *)
Theorem createPost_invalid content tags media ownerId uuid now color db :
  length (trim content) = 0 ∨ 1000 < length content →
  createPost (Some content) tags media ownerId uuid now color db
    = (Err InvalidArgument, db) ∧
  ∀ banned,
    snd (checkBan ownerId banned
           (createPost (Some content) tags media ownerId uuid now color) db) = db ∧
    (ownerId ∉ banned →
     fst (checkBan ownerId banned
            (createPost (Some content) tags media ownerId uuid now color) db)
       = Err InvalidArgument).
Proof.
  intros Hbad.
  assert (createPost (Some content) tags media ownerId uuid now color db
          = (Err InvalidArgument, db)) as Hcall.
  { unfold createPost.
    destruct (bool_decide (content = []) || bool_decide (length (trim content) = 0))
      eqn:Hempty; [done|].
    apply orb_false_iff in Hempty as [_ Htrim%bool_decide_eq_false].
    destruct Hbad as [Hbad|Hbad]; [done|].
    by rewrite bool_decide_eq_true_2. }
  split; [done|]. intros banned. unfold checkBan.
  case_bool_decide; rewrite ?Hcall; done.
Qed.

(** A body without [content] is turned away the same way. *)
Lemma createPost_no_content tags media ownerId uuid now color db :
  createPost None tags media ownerId uuid now color db = (Err InvalidArgument, db).
Proof. reflexivity. Qed.

(** A valid post is put in front of the others. *)
Lemma createPost_valid content tags media ownerId uuid now color db :
  0 < length (trim content) → length content ≤ 1000 →
  ∃ post, createPost (Some content) tags media ownerId uuid now color db
            = (Ok post, set_posts (post :: posts db) db) ∧
          Post.id post = uuid ∧ Post.content post = trim content ∧
          Post.ownerId post = ownerId.
Proof.
  intros Htrim Hlen. unfold createPost.
  assert (content ≠ []) as Hne by (intros ->; simpl in Htrim; lia).
  rewrite (bool_decide_eq_false_2 _ Hne).
  rewrite (bool_decide_eq_false_2 (length (trim content) = 0)) by lia.
  rewrite (bool_decide_eq_false_2 (1000 < length content)) by lia.
  eexists. split; [done|]. done.
Qed.

Lemma createPost_invalid_witness :
  length (replicate 1001 97%N : jsstring) = 1001 ∧
  createPost (Some (replicate 1001 97%N)) None None "bob" "p9" "t9" 2 db_two_posts
    = (Err InvalidArgument, db_two_posts) ∧
  createPost (Some [32%N; 9%N; 10%N; 160%N]) None None "bob" "p9" "t9" 2 db_two_posts
    = (Err InvalidArgument, db_two_posts).
Proof.
  split; [reflexivity|]. split.
  - refine (proj1 (createPost_invalid (replicate 1001 97%N) None None "bob" "p9" "t9"
                     2 db_two_posts _)).
    right. rewrite length_replicate. lia.
  - refine (proj1 (createPost_invalid [32%N; 9%N; 10%N; 160%N] None None "bob" "p9"
                     "t9" 2 db_two_posts _)).
    left. reflexivity.
Defined.

(** C9 (amended): for an id that matches no Post the report route answers
    NotFound (404) and the store is unchanged; otherwise it appends exactly
    one Report, whose keys are [id], [postId], [reason], [reportedBy] and
    [timestamp] and no other: the record carries no [status]. *)
Theorem submitReport_appends id reason reporterId uuid now db :
  (¬ post_exists id db →
     submitReport id reason reporterId uuid now db = (Err NotFound, db)) ∧
  (post_exists id db →
     ∃ r, submitReport id reason reporterId uuid now db
            = (Ok (), set_reports (reports db ++ [r]) db) ∧
          r !! "id"%string = Some uuid ∧
          r !! "postId"%string = Some id ∧
          r !! "reason"%string = Some (reason_or_default reason) ∧
          r !! "reportedBy"%string = Some reporterId ∧
          r !! "timestamp"%string = Some now ∧
          r !! "status"%string = None ∧
          size r = 5).
Proof.
  split.
  - intros Hnone. unfold submitReport.
    destruct (list_find _ (posts db)) as [ip|] eqn:Hfind; [|done].
    destruct Hnone. apply post_exists_find. by rewrite Hfind.
  - intros [ip Hfind]%post_exists_find. unfold submitReport. rewrite Hfind.
    eexists. split; [done|]. unfold new_report.
    split_and!; by simplify_map_eq.
Qed.

Lemma submitReport_appends_witness :
  ∃ r, submitReport "p1" (Some "spam"%string) "bob" "r1" "t9" db_two_posts
         = (Ok (), set_reports [r] db_two_posts) ∧
       r !! "postId"%string = Some "p1"%string ∧
       r !! "status"%string = None.
Proof.
  destruct (proj2 (submitReport_appends "p1" (Some "spam"%string) "bob" "r1" "t9"
                     db_two_posts))
    as (r & Hcall & _ & Hpost & _ & _ & _ & Hstatus & _).
  { exists post1. split; [apply list_elem_of_here|reflexivity]. }
  exists r. split_and!; [exact Hcall|exact Hpost|exact Hstatus].
Defined.

(** C9 as stated fails on every successful report: the appended record has
    no [status] key, so its status is not [pending]. *)
Lemma submitReport_no_status :
  post_exists "p1" db_two_posts ∧
  ∃ r, submitReport "p1" None "bob" "r1" "t9" db_two_posts
         = (Ok (), set_reports [r] db_two_posts) ∧
       r !! "status"%string = None ∧
       r !! "status"%string ≠ Some "pending"%string.
Proof.
  split.
  - exists post1. split; [apply list_elem_of_here|reflexivity].
  - eexists. split; [reflexivity|]. split; [|intros Hs]; by simplify_map_eq.
Qed.

(** ** Listing *)

(** Sorting with the comparator [(a, b) => key(b) - key(a)]. *)
Section sort_by_key.
Context {A : Type} (key : A → Z).

Local Abbreviation cmp := (λ a b : A, (key b - key a)%Z).
Local Abbreviation desc := (λ a b : A, (key b ≤ key a)%Z).

Lemma sort_insert_perm x (l : list A) : sort_insert cmp x l ≡ₚ x :: l.
Proof.
  induction l as [|y l IH]; simpl; [done|].
  case_bool_decide; [done|]. by rewrite IH, Permutation_swap.
Qed.

Lemma sort_perm (l : list A) : sort cmp l ≡ₚ l.
Proof.
  induction l as [|x l IH]; simpl; [done|].
  by rewrite sort_insert_perm, IH.
Qed.

Lemma sort_insert_sorted x (l : list A) :
  StronglySorted desc l → StronglySorted desc (sort_insert cmp x l).
Proof.
  induction 1 as [|y l Hsorted IH Hy]; simpl.
  - repeat constructor.
  - case_bool_decide as Hcmp.
    + constructor; [by constructor|].
      constructor; [lia|].
      eapply Forall_impl; [exact Hy|]. intros z Hz. simpl in Hz. lia.
    + constructor; [done|].
      rewrite sort_insert_perm. constructor; [lia|done].
Qed.

Lemma sort_sorted (l : list A) : StronglySorted desc (sort cmp l).
Proof.
  induction l as [|x l IH]; simpl; [constructor|]. by apply sort_insert_sorted.
Qed.

(** An element only ever moves behind elements of another key. *)
Lemma sort_insert_stable k x (l : list A) :
  filter (λ a, key a = k) (sort_insert cmp x l) = filter (λ a, key a = k) (x :: l).
Proof.
  induction l as [|y l IH]; simpl; [done|].
  case_bool_decide as Hcmp; [done|].
  rewrite filter_cons, IH, !filter_cons.
  repeat case_decide; try done; lia.
Qed.

Lemma sort_stable k (l : list A) :
  filter (λ a, key a = k) (sort cmp l) = filter (λ a, key a = k) l.
Proof.
  induction l as [|x l IH]; simpl; [done|].
  by rewrite sort_insert_stable, !filter_cons, IH.
Qed.


End sort_by_key.

Lemma view_tallies voterId db post :
  PostView.post (view voterId db post) = post ∧
  PostView.upvotes (view voterId db post) = tally (Post.id post) up (votes db) ∧
  PostView.downvotes (view voterId db post) = tally (Post.id post) down (votes db) ∧
  PostView.netVotes (view voterId db post)
    = netVotes_from_scratch (Post.id post) (votes db).
Proof.
  cbn. rewrite !count_type_tally. done.
Qed.

(** C7: the listing is in descending order of [netVotes]; the [netVotes] of
    each entry is the number of votes of its post with type up minus the
    number with type down in the Vote collection, computed by the listing
    and not taken from the stored post; every stored post is listed once;
    and the entries of any one [netVotes] value are the stored posts with
    that tally in the order of the posts collection. *)
Theorem listPosts_sorted_stable voterId db :
  StronglySorted (λ a b, (PostView.netVotes b ≤ PostView.netVotes a)%Z)
    (listPosts voterId db) ∧
  (∀ a, a ∈ listPosts voterId db →
     a = view voterId db (PostView.post a) ∧
     PostView.post a ∈ posts db ∧
     PostView.netVotes a
       = netVotes_from_scratch (Post.id (PostView.post a)) (votes db)) ∧
  PostView.post <$> listPosts voterId db ≡ₚ posts db ∧
  (∀ k, PostView.post <$> filter (λ a, PostView.netVotes a = k) (listPosts voterId db)
        = filter (λ p, netVotes_from_scratch (Post.id p) (votes db) = k) (posts db)).
Proof.
  unfold listPosts. split_and!.
  - apply (sort_sorted PostView.netVotes).
  - intros a Ha. rewrite (sort_perm PostView.netVotes) in Ha.
    apply list_elem_of_fmap in Ha as (p & -> & Hp).
    destruct (view_tallies voterId db p) as (Hpost & _ & _ & Hnet).
    rewrite Hpost. done.
  - rewrite (sort_perm PostView.netVotes), <- list_fmap_compose.
    by rewrite list_fmap_id.
  - intros k. rewrite (sort_stable PostView.netVotes).
    induction (posts db) as [|p ps IH]; [done|].
    rewrite fmap_cons, !filter_cons.
    destruct (view_tallies voterId db p) as (_ & _ & _ & Hnet).
    rewrite Hnet. case_decide; [|done]. by rewrite fmap_cons, IH.
Qed.

Lemma listPosts_sorted_stable_witness :
  PostView.post <$> listPosts "bob" db_listing = [post2; post1; post3] ∧
  PostView.netVotes <$> listPosts "bob" db_listing = [1; 0; 0]%Z ∧
  StronglySorted (λ a b, (PostView.netVotes b ≤ PostView.netVotes a)%Z)
    (listPosts "bob" db_listing).
Proof.
  split; [reflexivity|]. split; [reflexivity|].
  exact (proj1 (listPosts_sorted_stable "bob" db_listing)).
Defined.

(** ** The key constraints hold in every store the server reaches *)

Lemma filter_sublist_length {A} (P : A → Prop) `{!∀ x, Decision (P x)} (l1 l2 : list A) :
  l1 `sublist_of` l2 → length (filter P l1) ≤ length (filter P l2).
Proof.
  induction 1 as [|x l1 l2 _ IH|x l1 l2 _ IH]; [done|..];
    rewrite ?filter_cons; repeat case_decide; simpl; lia.
Qed.

(** A store whose posts, votes and bookmarks are picked from those of a
    well-formed store is well-formed. *)
Lemma store_wf_sublist db db' :
  posts db' `sublist_of` posts db →
  votes db' `sublist_of` votes db →
  bookmarks db' `sublist_of` bookmarks db →
  store_wf db → store_wf db'.
Proof.
  intros Hp Hv Hb (Hposts & Hvotes & Hbookmarks). split_and!.
  - intros id. etrans; [by apply filter_sublist_length|apply Hposts].
  - intros id voterId. etrans; [by apply filter_sublist_length|apply Hvotes].
  - intros id userId. etrans; [by apply filter_sublist_length|apply Hbookmarks].
Qed.

Lemma initializeDB_wf : store_wf initializeDB.
Proof. split_and!; repeat intro; compute; lia. Qed.

Lemma createPost_wf content tags media ownerId uuid now color db :
  Forall (λ p, Post.id p ≠ uuid) (posts db) →
  store_wf db →
  store_wf (snd (createPost content tags media ownerId uuid now color db)).
Proof.
  intros Hfresh Hwf. unfold createPost.
  destruct content as [content|]; [|done].
  repeat (case_match; [done|]).
  destruct Hwf as (Hposts & Hvotes & Hbookmarks). split_and!; [|done..].
  intros id. cbn [snd posts set_posts]. unfold post_rows.
  rewrite filter_cons. cbn [Post.id].
  destruct (decide (uuid = id)) as [<-|Hne]; [|apply Hposts].
  rewrite filter_none by done. simpl. lia.
Qed.

Lemma castVote_wf id voterId type now db :
  store_wf db → store_wf (snd (castVote id voterId type now db)).
Proof.
  intros (Hposts & Hvotes & Hbookmarks).
  pose proof (castVote_unique id voterId type now db Hvotes) as Hvotes'.
  revert Hvotes'. unfold castVote.
  destruct (parseType type) as [ty|]; [|done].
  destruct (list_find _ (posts db)); [|done].
  cbn. by intros.
Qed.

Lemma toggleBookmark_wf id userId now db :
  store_wf db → store_wf (snd (toggleBookmark id userId now db)).
Proof.
  intros Hwf. unfold toggleBookmark.
  destruct (list_find _ (bookmarks db)) as [[i b]|] eqn:Hfind.
  - eapply store_wf_sublist; [..|exact Hwf]; cbn; [done..|apply sublist_delete].
  - destruct Hwf as (Hposts & Hvotes & Hbookmarks). split_and!; [done..|].
    intros id' userId'. cbn [snd bookmarks set_bookmarks].
    specialize (Hbookmarks id' userId'). unfold bookmark_rows in *.
    rewrite filter_app, length_app, filter_cons, filter_nil.
    destruct (decide (is_bookmark_of id' userId' (Bookmark.mk id userId now)))
      as [[Hid Huser]|Hne]; [|simpl; lia].
    cbn [Bookmark.postId Bookmark.userId] in *.
    subst id' userId'. rewrite list_find_none_filter by done. simpl. lia.
Qed.

Lemma cascade_wf id ps db :
  ps `sublist_of` posts db → store_wf db → store_wf (cascade id ps db).
Proof.
  intros Hps. apply store_wf_sublist; cbn; [done|apply sublist_filter..].
Qed.

(** Every request leaves a well-formed store well-formed, provided a created
    post gets a fresh id. *)
Lemma handle_wf req st :
  fresh_uuid req st → store_wf (db_of st) → store_wf (db_of (handle req st)).
Proof.
  intros Hfresh Hwf.
  destruct req; cbn [handle db_of]; unfold checkBan;
    try (case_bool_decide; [done|]).
  - by apply createPost_wf.
  - by apply castVote_wf.
  - by apply toggleBookmark_wf.
  - unfold addComment. repeat (case_match; try done).
  - unfold submitReport. by case_match.
  - unfold deletePost. repeat (case_match; try done).
    apply cascade_wf; [apply sublist_filter|done].
  - unfold adminDeletePost. repeat (case_match; try done).
    apply cascade_wf; [apply sublist_delete|done].
  - unfold banIdentity. repeat (case_match; simplify_eq; try done);
      (eapply store_wf_sublist; [..|exact Hwf]; cbn; [apply sublist_filter..|done]).
  - done.
Qed.

Theorem reachable_wf st : reachable st → store_wf (db_of st).
Proof.
  induction 1 as [|st req _ IH Hfresh]; [apply initializeDB_wf|by apply handle_wf].
Qed.

(** The three stores with a doubled key used above are not stores of the
    data model, and the server never arrives at them. *)
Lemma malformed_not_wf :
  ¬ store_wf db_two_votes ∧ ¬ store_wf db_two_bookmarks ∧
  ¬ store_wf db_two_posts_one_id.
Proof.
  split_and!.
  - intros (_ & Hvotes & _). specialize (Hvotes "p1"%string "bob"%string).
    vm_compute in Hvotes. lia.
  - intros (_ & _ & Hbookmarks).
    specialize (Hbookmarks "p1"%string "bob"%string).
    vm_compute in Hbookmarks. lia.
  - intros (Hposts & _). specialize (Hposts "p1"%string).
    vm_compute in Hposts. lia.
Qed.

Lemma malformed_unreachable st :
  reachable st →
  db_of st ≠ db_two_votes ∧ db_of st ≠ db_two_bookmarks ∧
  db_of st ≠ db_two_posts_one_id.
Proof.
  intros Hwf%reachable_wf.
  destruct malformed_not_wf as (Hvotes & Hbookmarks & Hposts).
  split_and!; intros Heq; rewrite Heq in Hwf; tauto.
Qed.

(** On every store the server reaches, the conditions on single keys that the
    vote, bookmark and admin deletion properties ask for hold for every
    key. *)
Lemma reachable_rows st :
  reachable st →
  (∀ id voterId, vote_rows id voterId (votes (db_of st)) ≤ 1) ∧
  (∀ id userId, bookmark_rows id userId (bookmarks (db_of st)) ≤ 1) ∧
  (∀ id, post_rows id (posts (db_of st)) ≤ 1).
Proof.
  intros (Hposts & Hvotes & Hbookmarks)%reachable_wf. by split_and!.
Qed.

(** ** Scenarios *)

(** ["hello #world #World"] has the one hashtag ["#world"]. *)
Lemma extractHashtags_scenario :
  extractHashtags
    [104; 101; 108; 108; 111; 32; 35; 119; 111; 114; 108; 100; 32;
     35; 87; 111; 114; 108; 100]%N
  = [[35; 119; 111; 114; 108; 100]%N].
Proof. reflexivity. Qed.

(** Two identities vote up on the same post, then one of them switches. *)
Lemma two_voters_scenario :
  tally_and_milestone <$> vote_answers
    [VoteCall.mk "p1" "bob" "up" "t1"; VoteCall.mk "p1" "carol" "up" "t2";
     VoteCall.mk "p1" "carol" "down" "t3"] (mkDB [post1] [] [] [] [])
  = [Some (1%Z, None); Some (2%Z, None); Some (0%Z, None)] ∧
  votes (castVotes
    [VoteCall.mk "p1" "bob" "up" "t1"; VoteCall.mk "p1" "carol" "up" "t2";
     VoteCall.mk "p1" "carol" "down" "t3"] (mkDB [post1] [] [] [] []))
  = [Vote.mk "p1" "bob" up "t1"; Vote.mk "p1" "carol" down "t2"].
Proof. split; reflexivity. Qed.

(** A banned identity is turned away at the gate, whatever it asks for. *)
Lemma checkBan_banned {A} voterId banned (next : DB → Result A * DB) db :
  voterId ∈ banned → checkBan voterId banned next db = (Err Forbidden, db).
Proof. intros Hin. unfold checkBan. by rewrite bool_decide_eq_true_2. Qed.

Lemma toggleBookmark_no_post_check_witness :
  ∃ db', toggleBookmark "ghost" "bob" "t9" db_two_posts = (Ok true, db') ∧
         Bookmark.mk "ghost" "bob" "t9" ∈ bookmarks db' ∧
         ¬ post_exists "ghost" db'.
Proof.
  refine (proj1 (proj2 (proj2
    (toggleBookmark_no_post_check "ghost" "bob" "t9" db_two_posts))) _ _).
  - intros (p & Hp & Hid). cbn in Hp.
    apply elem_of_cons in Hp as [->|Hp]; [discriminate|].
    apply list_elem_of_singleton in Hp as ->. discriminate.
  - reflexivity.
Defined.

(** * The rest of the server *)

(** ** Trimming *)

Lemma trimStart_split s :
  ∃ ws, s = ws ++ trimStart s ∧ Forall (λ c, is_whitespace c = true) ws ∧
        starts_clean (trimStart s).
Proof.
  induction s as [|c s (ws & Hs & Hws & Hclean)]; simpl.
  - by exists [].
  - destruct (is_whitespace c) eqn:Hc.
    + exists (c :: ws). split_and!; [by rewrite Hs at 1|by constructor|done].
    + by exists [].
Qed.

Lemma trimStart_clean s : starts_clean s → trimStart s = s.
Proof. destruct s as [|c s]; simpl; [done|]. by intros ->. Qed.

Lemma starts_clean_prefix s1 s2 :
  starts_clean (s1 ++ s2) → starts_clean s1.
Proof. by destruct s1. Qed.

(** What [trim] returns, told from the argument alone. *)
Lemma trim_split s :
  ∃ l r, s = l ++ trim s ++ r ∧
         Forall (λ c, is_whitespace c = true) l ∧
         Forall (λ c, is_whitespace c = true) r ∧
         starts_clean (trim s) ∧ ends_clean (trim s).
Proof.
  unfold trim, ends_clean.
  destruct (trimStart_split s) as (l & Hs & Hl & Ha).
  destruct (trimStart_split (reverse (trimStart s))) as (w & Hrev & Hw & Hb).
  set (a := trimStart s) in *. set (b := trimStart (reverse a)) in *.
  assert (a = reverse b ++ reverse w) as Ha'.
  { by rewrite <- reverse_app, <- Hrev, reverse_involutive. }
  exists l, (reverse w). split_and!.
  - by rewrite <- Ha'.
  - done.
  - by apply Forall_reverse.
  - rewrite Ha' in Ha. by eapply starts_clean_prefix.
  - by rewrite reverse_involutive.
Qed.

Lemma trim_clean s : starts_clean s → ends_clean s → trim s = s.
Proof.
  intros Hs He. unfold trim.
  rewrite (trimStart_clean s Hs), (trimStart_clean _ He).
  apply reverse_involutive.
Qed.

Lemma trim_length s : length (trim s) ≤ length s.
Proof.
  destruct (trim_split s) as (l & r & Hs & _).
  rewrite Hs at 2. rewrite !length_app. lia.
Qed.

(** [trim] cuts white space, and only white space, from both ends: the
    string is its trimmed form between two runs of white space, the trimmed
    form neither begins nor ends with white space, and trimming it again
    changes nothing. *)
Theorem trim_both_ends s :
  (∃ l r, s = l ++ trim s ++ r ∧
          Forall (λ c, is_whitespace c = true) l ∧
          Forall (λ c, is_whitespace c = true) r) ∧
  starts_clean (trim s) ∧ ends_clean (trim s) ∧
  trim (trim s) = trim s ∧
  length (trim s) ≤ length s.
Proof.
  destruct (trim_split s) as (l & r & Hs & Hl & Hr & Hstart & Hend).
  split_and!; [by exists l, r|done|done|by apply trim_clean|apply trim_length].
Qed.

(** A string of white space only trims to the empty string, and only such a
    string does. *)
Lemma trim_empty s :
  trim s = [] ↔ Forall (λ c, is_whitespace c = true) s.
Proof.
  split.
  - intros Hnil. destruct (trim_split s) as (l & r & Hs & Hl & Hr & _).
    rewrite Hnil in Hs. rewrite Hs. by apply Forall_app.
  - intros Hws. unfold trim.
    assert (∀ t, Forall (λ c, is_whitespace c = true) t → trimStart t = []) as Hall.
    { induction 1 as [|c t Hc _ IH]; simpl; [done|]. by rewrite Hc. }
    by rewrite (Hall s Hws).
Qed.

(** ** What gets stored as text *)

Lemma trim_stored limit content :
  length (trim content) ≠ 0 → length content ≤ limit →
  stored_text limit (trim content).
Proof.
  intros Hne Hlen. pose proof (trim_length content).
  destruct (trim_split content) as (_ & _ & _ & _ & _ & Hstart & Hend).
  split; [lia|by apply trim_clean].
Qed.

Lemma not_all_whitespace s :
  length (trim s) ≠ 0 ↔ Exists (λ c, is_whitespace c = false) s.
Proof.
  rewrite length_zero_iff_nil, trim_empty.
  destruct (decide (Forall (λ c, is_whitespace c = true) s)) as [Hall|Hnot].
  - split; [done|]. intros Hex _.
    apply Exists_exists in Hex as (c & Hc & Hfalse).
    eapply Forall_forall in Hall; [|exact Hc]. congruence.
  - split; [intros _|done].
    apply not_Forall_Exists in Hnot; [|apply _].
    eapply Exists_impl; [exact Hnot|]. intros c Hc. simpl in Hc.
    by apply not_true_is_false.
Qed.

(** The post route accepts a content exactly when it holds a code unit that
    is not white space and is at most 1000 code units long, white space
    included. *)
Theorem createPost_accepts content tags media ownerId uuid now color db :
  (∃ post db', createPost (Some content) tags media ownerId uuid now color db
               = (Ok post, db')) ↔
  Exists (λ c, is_whitespace c = false) content ∧ length content ≤ 1000.
Proof.
  rewrite <- not_all_whitespace. unfold createPost. split.
  - intros (post & db' & Hcall).
    destruct (bool_decide (content = []) || bool_decide (length (trim content) = 0))
      eqn:Hempty; [done|].
    apply orb_false_iff in Hempty as [_ Htrim%bool_decide_eq_false].
    destruct (bool_decide (1000 < length content)) eqn:Hlong; [done|].
    apply bool_decide_eq_false in Hlong. split; [done|lia].
  - intros [Htrim Hlen].
    assert (content ≠ []) as Hne by (by intros ->).
    rewrite (bool_decide_eq_false_2 _ Hne), (bool_decide_eq_false_2 _ Htrim).
    rewrite (bool_decide_eq_false_2 (1000 < length content)) by lia.
    by eexists _, _.
Qed.

Lemma createPost_accepts_witness :
  ∃ post db', createPost (Some [32; 104; 105; 32]%N) None None "bob" "p9" "t9" 2
                db_two_posts = (Ok post, db') ∧
              Post.content post = [104; 105]%N.
Proof.
  destruct (proj2 (createPost_accepts [32; 104; 105; 32]%N None None "bob" "p9" "t9"
                     2 db_two_posts)) as (post & db' & Hcall).
  { split; [|simpl; lia].
    apply Exists_cons_tl, Exists_cons_hd. reflexivity. }
  exists post, db'. split; [exact Hcall|].
  injection Hcall as <- _. reflexivity.
Defined.

(** The post a successful creation answers with is put in front of the
    stored posts and nothing else in the store changes; it carries the id,
    owner and time it was given, and its content is the trimmed one: not
    empty, at most 1000 long, clean at both ends. *)
Theorem createPost_stores content tags media ownerId uuid now color db post db' :
  createPost content tags media ownerId uuid now color db = (Ok post, db') →
  db' = set_posts (post :: posts db) db ∧
  Post.id post = uuid ∧ Post.ownerId post = ownerId ∧ Post.timestamp post = now ∧
  Post.tags post = default [] tags ∧ Post.media post = default [] media ∧
  (∃ c, content = Some c ∧ Post.content post = trim c) ∧
  stored_text 1000 (Post.content post).
Proof.
  unfold createPost. destruct content as [content|]; [|done].
  destruct (bool_decide (content = []) || bool_decide (length (trim content) = 0))
    eqn:Hempty; [done|].
  apply orb_false_iff in Hempty as [_ Htrim%bool_decide_eq_false].
  destruct (bool_decide (1000 < length content)) eqn:Hlong; [done|].
  apply bool_decide_eq_false in Hlong.
  intros [= <- <-]. split_and!; try done; [by exists content|].
  apply trim_stored; [done|lia].
Qed.

Lemma createPost_stores_witness :
  stored_text 1000 [104; 105]%N.
Proof.
  exact (proj2 (proj2 (proj2 (proj2 (proj2 (proj2 (proj2
    (createPost_stores (Some [32; 104; 105; 32]%N) None None "bob" "p9" "t9" 2
       db_two_posts _ _ eq_refl)))))))).
Defined.

Lemma Forall_sublist_of {A} (P : A → Prop) (l1 l2 : list A) :
  l1 `sublist_of` l2 → Forall P l2 → Forall P l1.
Proof.
  induction 1 as [|x l1 l2 _ IH|x l1 l2 _ IH]; [done|..].
  - intros [Hx Hall]%Forall_cons_1. constructor; auto.
  - intros [_ Hall]%Forall_cons_1. auto.
Qed.

Lemma texts_stored_sublist db db' :
  posts db' `sublist_of` posts db → comments db' `sublist_of` comments db →
  texts_stored db → texts_stored db'.
Proof.
  intros Hp Hc [Hposts Hcomments].
  split; by eapply Forall_sublist_of.
Qed.

Lemma handle_texts_stored req st :
  texts_stored (db_of st) → texts_stored (db_of (handle req st)).
Proof.
  intros Hok.
  destruct req; cbn [handle db_of]; unfold checkBan;
    try (case_bool_decide; [done|]).
  - unfold createPost. destruct content as [content|]; [|done].
    destruct (bool_decide (content = []) || bool_decide (length (trim content) = 0))
      eqn:Hempty; [done|].
    apply orb_false_iff in Hempty as [_ Htrim%bool_decide_eq_false].
    destruct (bool_decide (1000 < length content)) eqn:Hlong; [done|].
    apply bool_decide_eq_false in Hlong. destruct Hok as [Hposts Hcomments].
    split; [|done]. cbn. constructor; [|done]. apply trim_stored; [done|lia].
  - unfold castVote. repeat (case_match; try done).
  - unfold toggleBookmark. repeat (case_match; try done).
  - unfold addComment. destruct content as [content|]; [|done].
    destruct (bool_decide (content = []) || bool_decide (length (trim content) = 0))
      eqn:Hempty; [done|].
    apply orb_false_iff in Hempty as [_ Htrim%bool_decide_eq_false].
    destruct (bool_decide (500 < length content)) eqn:Hlong; [done|].
    apply bool_decide_eq_false in Hlong.
    destruct (list_find _ _); [|done]. destruct Hok as [Hposts Hcomments].
    split; [done|]. cbn. apply Forall_app. split; [done|].
    constructor; [|done]. apply trim_stored; [done|lia].
  - unfold submitReport. by case_match.
  - unfold deletePost. repeat (case_match; try done).
    eapply texts_stored_sublist; [..|exact Hok]; apply sublist_filter.
  - unfold adminDeletePost. repeat (case_match; try done).
    eapply texts_stored_sublist; [..|exact Hok]; [apply sublist_delete|apply sublist_filter].
  - unfold banIdentity. repeat (case_match; simplify_eq; try done);
      (eapply texts_stored_sublist; [..|exact Hok]; apply sublist_filter).
  - done.
Qed.

(** In every store the server arrives at from the empty database, each post
    holds a content of 1 to 1000 code units and each comment one of 1 to
    500, neither beginning nor ending with white space. *)
Theorem reachable_texts_stored st :
  reachable st →
  Forall (λ p, stored_text 1000 (Post.content p)) (posts (db_of st)) ∧
  Forall (λ c, stored_text 500 (Comment.content c)) (comments (db_of st)).
Proof.
  induction 1 as [|st req _ IH _].
  - split; constructor.
  - by apply handle_texts_stored.
Qed.

Lemma reachable_texts_stored_witness :
  let st := handle (AddComment "bob" "p9" (Some [32; 111; 107]%N) "c9" "t2")
              (handle (CreatePost "alice" (Some [104; 105; 10]%N) None None "p9" "t1" 0)
                 (mkState initializeDB [])) in
  (Post.content <$> posts (db_of st) = [[104; 105]%N] ∧
   Comment.content <$> comments (db_of st) = [[111; 107]%N]) ∧
  Forall (λ p, stored_text 1000 (Post.content p)) (posts (db_of st)).
Proof.
  intros st. split; [split; reflexivity|].
  refine (proj1 (reachable_texts_stored st _)).
  apply reachable_step; [apply reachable_step; [apply reachable_init|]|];
    simpl; constructor.
Defined.

(** ** Comments and votes keep their post *)

Lemma post_exists_posts id db db' :
  (∀ p, p ∈ posts db → Post.id p = id → p ∈ posts db') →
  post_exists id db → post_exists id db'.
Proof. intros Hkeep (p & Hp & Hid). exists p. auto. Qed.

Lemma dependents_same_posts db db' :
  posts db' = posts db →
  (∀ c, c ∈ comments db' → c ∈ comments db ∨ post_exists (Comment.postId c) db) →
  (∀ v, v ∈ votes db' → v ∈ votes db ∨ post_exists (Vote.postId v) db) →
  dependents_have_post db → dependents_have_post db'.
Proof.
  intros Hposts Hc Hv [Hcs Hvs].
  assert (∀ id, post_exists id db → post_exists id db') as Hmono.
  { intros id. apply post_exists_posts. intros p Hp _. by rewrite Hposts. }
  split; apply Forall_forall.
  - intros c [Hold|Hnew]%Hc; [|by apply Hmono].
    eapply Forall_forall in Hcs; [|exact Hold]. by apply Hmono.
  - intros v [Hold|Hnew]%Hv; [|by apply Hmono].
    eapply Forall_forall in Hvs; [|exact Hold]. by apply Hmono.
Qed.

(** Both deletion routes: whatever posts array [ps] is handed to the cascade,
    if it still holds every post of another id, what is left keeps its
    post. *)
Lemma cascade_dependents_have_post id ps db :
  (∀ p, p ∈ posts db → Post.id p ≠ id → p ∈ ps) →
  dependents_have_post db → dependents_have_post (cascade id ps db).
Proof.
  intros Hkeep [Hcs Hvs]. split; apply Forall_forall; cbn.
  - intros c [Hne Hc]%list_elem_of_filter.
    eapply Forall_forall in Hcs; [|exact Hc].
    destruct Hcs as (p & Hp & Hid). exists p. split; [|done].
    apply Hkeep; [done|congruence].
  - intros v [Hne Hv]%list_elem_of_filter.
    eapply Forall_forall in Hvs; [|exact Hv].
    destruct Hvs as (p & Hp & Hid). exists p. split; [|done].
    apply Hkeep; [done|congruence].
Qed.

Lemma vote_change_postId id voterId ty now vs vs' v :
  vote_change id voterId ty now vs vs' → v ∈ vs' →
  Vote.postId v = id ∨ v ∈ vs.
Proof.
  intros [l1 w l2 -> _ [Hid _] _|l1 w l2 -> _ [Hid _] _|_] Hv.
  - right. apply elem_of_app in Hv as [Hv|Hv]; apply elem_of_app; [by left|].
    right. by apply elem_of_cons; right.
  - apply elem_of_app in Hv as [Hv|Hv]; [right; apply elem_of_app; by left|].
    apply elem_of_cons in Hv as [->|Hv]; [by left|].
    right. apply elem_of_app. right. by apply elem_of_cons; right.
  - apply elem_of_app in Hv as [Hv|Hv]; [by right|].
    apply list_elem_of_singleton in Hv as ->. by left.
Qed.

(** Apart from a ban that is asked to delete posts, no request takes the
    post away from under a comment or a vote: if every Comment and Vote
    refers to a stored Post before the request, so it does after. *)
Theorem handle_dependents_have_post req st :
  (∀ voterId, req ≠ AdminBan voterId true) →
  dependents_have_post (db_of st) →
  dependents_have_post (db_of (handle req st)).
Proof.
  intros Hreq Hok.
  destruct req; cbn [handle db_of]; unfold checkBan;
    try (case_bool_decide; [done|]).
  - unfold createPost. repeat (case_match; try done).
    destruct Hok as [Hcs Hvs].
    split; (eapply Forall_impl; [done|]); cbn; intros x;
      apply post_exists_posts; intros p Hp _; cbn; by apply elem_of_cons; right.
  - unfold castVote. destruct (parseType type) as [ty|]; [|done].
    destruct (list_find _ (posts (db_of st))) as [ip|] eqn:Hfind; [|done].
    eapply dependents_same_posts; [..|exact Hok]; cbn; [done|by left|].
    intros v Hv.
    eapply vote_change_postId in Hv as [Hid|Hv]; [|by left|apply apply_vote_change].
    right. rewrite Hid. apply post_exists_find. by rewrite Hfind.
  - unfold toggleBookmark. repeat (case_match; try done);
      (eapply dependents_same_posts; [..|exact Hok]; cbn; [done|by left..]).
  - unfold addComment. repeat (case_match; try done).
    eapply dependents_same_posts; [..|exact Hok]; cbn; [done| |by left].
    intros c [Hc|Hc]%elem_of_app; [by left|].
    apply list_elem_of_singleton in Hc as ->. right. cbn.
    apply post_exists_find. by eexists.
  - unfold submitReport. repeat (case_match; try done).
  - unfold deletePost. repeat (case_match; try done).
    apply cascade_dependents_have_post; [|done].
    intros q Hq Hne. by apply list_elem_of_filter.
  - unfold adminDeletePost.
    destruct (list_find _ (posts (db_of st))) as [[i x]|] eqn:Hfind; [|done].
    apply cascade_dependents_have_post; [|done].
    apply list_find_split in Hfind as (l1 & l2 & Hps & <- & _ & Hid).
    rewrite Hps, delete_middle. intros q Hq Hne.
    apply elem_of_app in Hq as [Hq|Hq]; apply elem_of_app; [by left|].
    apply elem_of_cons in Hq as [->|Hq]; [done|by right].
  - destruct deletePosts; [by destruct (Hreq voterId)|].
    unfold banIdentity. repeat (case_match; simplify_eq; try done).
  - done.
Qed.

Lemma handle_dependents_have_post_witness :
  dependents_have_post db_two_posts ∧
  dependents_have_post
    (db_of (handle (AdminDeletePost "p1") (mkState db_two_posts []))).
Proof.
  assert (dependents_have_post db_two_posts) as Hok.
  { split; repeat constructor; cbn;
      [exists post1|exists post2|exists post1|exists post2];
      (split; [|reflexivity]); repeat constructor. }
  split; [exact Hok|].
  apply (handle_dependents_have_post (AdminDeletePost "p1") (mkState db_two_posts []));
    [discriminate|exact Hok].
Defined.

(** ** The ban list at work *)

Lemma handle_banned_caller req st caller :
  caller_of req = Some caller → caller ∈ banned_of st → handle req st = st.
Proof.
  intros Hcaller Hin. destruct st as [db banned].
  destruct req; simplify_eq/=; unfold checkBan;
    by rewrite bool_decide_eq_true_2.
Qed.

Lemma banIdentity_banned voterId deletePosts banned db :
  voterId ≠ EmptyString →
  ∃ db', banIdentity voterId deletePosts banned db
         = (Ok (), (if bool_decide (voterId ∈ banned) then banned
                    else banned ++ [voterId], db')) ∧
         db' = if deletePosts
               then mkDB (filter (λ p, Post.ownerId p ≠ voterId) (posts db))
                         (comments db) (votes db) (bookmarks db) (reports db)
               else db.
Proof.
  intros Hid. unfold banIdentity. rewrite bool_decide_eq_false_2 by done.
  destruct deletePosts; eexists; (split; [done|]); [|done].
  f_equal; apply filter_all, Forall_forall; intros x _;
    by rewrite ban_keeps_always.
Qed.

(** Once an identity is banned, nothing it asks for through the public
    routes has any effect: whatever run of its requests follows the ban, the
    database and the ban list stay as the ban left them. *)
Theorem ban_locks_out voterId deletePosts reqs st :
  voterId ≠ EmptyString →
  Forall (λ req, caller_of req = Some voterId) reqs →
  voterId ∈ banned_of (handle (AdminBan voterId deletePosts) st) ∧
  handle_all reqs (handle (AdminBan voterId deletePosts) st)
    = handle (AdminBan voterId deletePosts) st.
Proof.
  intros Hid Hreqs.
  assert (voterId ∈ banned_of (handle (AdminBan voterId deletePosts) st)) as Hin.
  { cbn [handle].
    destruct (banIdentity_banned voterId deletePosts (banned_of st) (db_of st) Hid)
      as (db' & -> & _). cbn.
    case_bool_decide; [done|]. apply elem_of_app. right. apply list_elem_of_here. }
  split; [done|].
  induction Hreqs as [|req reqs Hreq _ IH]; [done|].
  cbn [handle_all foldl]. by rewrite (handle_banned_caller req _ voterId).
Qed.

Lemma ban_locks_out_witness :
  let st := handle (AdminBan "alice" false) (mkState db_two_posts []) in
  handle_all [DeletePost "alice" "p1"; CastVote "alice" "p2" "up" "t9";
              ToggleBookmark "alice" "p2" "t9"] st = st ∧
  db_of st = db_two_posts.
Proof.
  intros st. split; [|reflexivity].
  refine (proj2 (ban_locks_out "alice" false _ (mkState db_two_posts []) _ _));
    [discriminate|repeat constructor].
Defined.

(** Lifting a ban takes every copy of the identity off the list, leaves the
    other identities on it in their order, and leaves the database alone;
    the identity then passes the gate again. *)
Theorem unban_lets_in voterId st :
  voterId ≠ EmptyString →
  let st' := handle (AdminUnban voterId) st in
  db_of st' = db_of st ∧
  (voterId ∉ banned_of st') ∧
  banned_of st' = filter (λ u, u ≠ voterId) (banned_of st) ∧
  (∀ A (next : DB → Result A * DB) db,
     checkBan voterId (banned_of st') next db = next db).
Proof.
  intros Hid st'. subst st'. cbn [handle db_of banned_of]. unfold unbanIdentity.
  rewrite bool_decide_eq_false_2 by done. cbn [snd].
  assert (voterId ∉ filter (λ u, u ≠ voterId) (banned_of st)) as Hout.
  { by intros [Hne _]%list_elem_of_filter. }
  split_and!; try done.
  intros A next db. unfold checkBan. by rewrite bool_decide_eq_false_2.
Qed.

Lemma unban_lets_in_witness :
  banned_of (handle (AdminUnban "alice")
               (mkState db_two_posts ["alice"; "bob"; "alice"]%string))
    = ["bob"%string] ∧
  ("alice" : string) ∉ banned_of (handle (AdminUnban "alice")
               (mkState db_two_posts ["alice"; "bob"; "alice"]%string)).
Proof.
  split; [reflexivity|].
  refine (proj1 (proj2 (unban_lets_in "alice"
            (mkState db_two_posts ["alice"; "bob"; "alice"]%string) _))).
  discriminate.
Defined.

Lemma handle_banned_NoDup req st :
  NoDup (banned_of st) → NoDup (banned_of (handle req st)).
Proof.
  intros Hnd. destruct req; cbn [handle banned_of]; try done.
  - unfold banIdentity. repeat (case_match; simplify_eq; try done);
      cbn; (apply NoDup_app; split_and!; [done| |apply NoDup_singleton]);
      intros u Hu ->%list_elem_of_singleton; by case_bool_decide.
  - unfold unbanIdentity. case_bool_decide; [done|]. by apply NoDup_filter.
Qed.

(** Banning is idempotent on the whole state, with or without the deletion
    of posts: a second ban of the same identity changes neither the ban list
    nor the database. *)
Theorem ban_idempotent voterId deletePosts st :
  handle (AdminBan voterId deletePosts) (handle (AdminBan voterId deletePosts) st)
    = handle (AdminBan voterId deletePosts) st.
Proof.
  cbn [handle].
  destruct (decide (voterId = EmptyString)) as [->|Hid]; [by destruct deletePosts|].
  destruct (banIdentity_banned voterId deletePosts (banned_of st) (db_of st) Hid)
    as (db' & -> & Hdb'). cbn [db_of banned_of].
  set (banned' := if bool_decide (voterId ∈ banned_of st) then _ else _).
  destruct (banIdentity_banned voterId deletePosts banned' db' Hid)
    as (db'' & -> & Hdb'').
  assert (voterId ∈ banned') as Hin.
  { subst banned'. case_bool_decide; [done|].
    apply elem_of_app. right. apply list_elem_of_here. }
  rewrite (bool_decide_eq_true_2 _ Hin). f_equal.
  subst db'' db'. destruct deletePosts; [|done]. cbn.
  by rewrite filter_filter_same.
Qed.

(** The ban list the server builds from the empty state never holds an
    identity twice. *)
Theorem reachable_banned_NoDup st : reachable st → NoDup (banned_of st).
Proof.
  induction 1 as [|st' req _ IH _]; [constructor|by apply handle_banned_NoDup].
Qed.

Lemma reachable_banned_NoDup_witness :
  let st := handle (AdminBan "bob" false)
              (handle (AdminBan "alice" true)
                 (handle (AdminBan "bob" false) (mkState initializeDB []))) in
  banned_of st = ["bob"; "alice"]%string ∧ NoDup (banned_of st).
Proof.
  intros st. split; [reflexivity|].
  apply (reachable_banned_NoDup st).
  repeat (apply reachable_step; [|exact I]). apply reachable_init.
Defined.

(** ** Identity *)

(** The fingerprint holds alphanumeric code units only, at most 64 of them,
    whatever address and user agent the request carries, also when both are
    missing. *)
Theorem getVoterId_shape ip remoteAddress ua :
  Forall (λ c, is_alnum c = true) (getVoterId ip remoteAddress ua) ∧
  length (getVoterId ip remoteAddress ua) ≤ 64 ∧
  getVoterId None None ua = take 64 (unknown ++ filter (λ c, is_alnum c) (or_else ua [])).
Proof.
  unfold getVoterId. split_and!.
  - apply Forall_take, Forall_forall. intros c [Hc _]%list_elem_of_filter.
    by apply Is_true_true.
  - rewrite length_take. lia.
  - cbn [or_else]. by rewrite !filter_app.
Qed.


Lemma or_else_nil s : or_else (Some s) [] = s.
Proof. by destruct s. Qed.

Lemma getVoterId_alnums ip remoteAddress ua :
  getVoterId ip remoteAddress ua
  = take 64 (filter (λ c, is_alnum c) (or_else ip (or_else remoteAddress unknown))
             ++ filter (λ c, is_alnum c) (or_else ua [])).
Proof. unfold getVoterId. by rewrite !filter_app. Qed.

(** Only the first 64 alphanumeric code units count: once the address and
    the user agent hold that many, whatever else the user agent goes on with
    gives the same fingerprint. *)
Theorem getVoterId_truncates ip remoteAddress ua more :
  64 ≤ length (filter (λ c, is_alnum c)
                 (or_else ip (or_else remoteAddress unknown) ++ ua)) →
  getVoterId ip remoteAddress (Some (ua ++ more))
    = getVoterId ip remoteAddress (Some ua).
Proof.
  intros Hlen. rewrite !getVoterId_alnums, !or_else_nil.
  rewrite filter_app in Hlen. rewrite (filter_app _ ua more), app_assoc.
  by rewrite take_app_le.
Qed.

Lemma getVoterId_truncates_witness :
  getVoterId (Some (replicate 40 49%N)) None (Some (replicate 30 97%N ++ [98; 99]%N))
    = replicate 40 49%N ++ replicate 24 97%N.
Proof.
  rewrite (getVoterId_truncates (Some (replicate 40 49%N)) None (replicate 30 97%N)
             [98; 99]%N); [reflexivity|].
  vm_compute. lia.
Defined.

(** ** Hashtags *)

Lemma word_prefix_words s : Forall (λ c, is_word c = true) (word_prefix s).
Proof.
  induction s as [|c s IH]; simpl; [constructor|].
  destruct (is_word c) eqn:Hc; by constructor.
Qed.

Lemma hashtag_matches_shape s m :
  m ∈ hashtag_matches s →
  ∃ w, m = 35%N :: w ∧ w ≠ [] ∧ Forall (λ c, is_word c = true) w.
Proof.
  induction s as [|c s IH]; simpl; [by intros ?%elem_of_nil|].
  destruct (c =? 35)%N eqn:Hc; [|done].
  apply N.eqb_eq in Hc as ->.
  pose proof (word_prefix_words s) as Hw.
  destruct (word_prefix s) as [|d w] eqn:Hprefix; [done|].
  intros [->|Hm]%elem_of_cons; [|by apply IH].
  by exists (d :: w).
Qed.

Lemma toLowerCase_word c :
  is_word c = true →
  is_lower_word (if ((65 <=? c) && (c <=? 90))%N then (c + 32)%N else c) = true.
Proof.
  unfold is_word, is_lower_word.
  destruct ((65 <=? c) && (c <=? 90))%N eqn:Hupper.
  - apply andb_true_iff in Hupper as [H1%N.leb_le H2%N.leb_le]. intros _.
    apply orb_true_iff. right. apply andb_true_iff. split; apply N.leb_le; lia.
  - by destruct ((48 <=? c) && (c <=? 57))%N, (c =? 95)%N,
               ((97 <=? c) && (c <=? 122))%N.
Qed.

Lemma set_order_elem_of l x : x ∈ set_order l ↔ x ∈ l.
Proof.
  induction l as [|y l IH]; simpl; [done|].
  rewrite !elem_of_cons, list_elem_of_filter, IH.
  destruct (decide (x = y)) as [->|Hne]; [split; intros _; by left|].
  split; (intros [Heq|Hin]; [done|right]); [by destruct Hin|done].
Qed.

Lemma set_order_NoDup l : NoDup (set_order l).
Proof.
  induction l as [|y l IH]; simpl; [constructor|].
  apply NoDup_cons. split; [|by apply NoDup_filter].
  by intros [Hne _]%list_elem_of_filter.
Qed.

(** The hashtags of a content are pairwise different, and each is a [#]
    followed by at least one digit, underscore or lower-case letter: the
    lower-case form of a [#word] of the content, whatever its case there. *)
Theorem extractHashtags_shape content :
  NoDup (extractHashtags content) ∧
  (∀ tag, tag ∈ extractHashtags content ↔
          ∃ m, m ∈ hashtag_matches content ∧ tag = toLowerCase m) ∧
  Forall (λ tag, ∃ w, tag = 35%N :: w ∧ w ≠ [] ∧
                      Forall (λ c, is_lower_word c = true) w)
         (extractHashtags content).
Proof.
  unfold extractHashtags. split_and!.
  - apply set_order_NoDup.
  - intros tag. rewrite set_order_elem_of, list_elem_of_fmap.
    split; intros (m & H1 & H2); by exists m.
  - apply Forall_forall. intros tag.
    rewrite set_order_elem_of, list_elem_of_fmap.
    intros (m & -> & (w & -> & Hne & Hw)%hashtag_matches_shape).
    exists (toLowerCase w). split_and!.
    + done.
    + by destruct w.
    + unfold toLowerCase. apply Forall_fmap.
      eapply Forall_impl; [exact Hw|]. intros c Hc. by apply toLowerCase_word.
Qed.

(** ** Admin access *)

Lemma strip_prefix_app pat s : strip_prefix pat (pat ++ s) = Some s.
Proof.
  induction pat as [|p pat IH]; simpl; [by destruct s|].
  by rewrite decide_True.
Qed.

Lemma replace_first_prefix pat s : replace_first pat (pat ++ s) = s.
Proof.
  pose proof (strip_prefix_app pat s) as Hstrip.
  destruct (pat ++ s); simpl; by rewrite Hstrip.
Qed.

(** A header of the form [Bearer <token>] is let through exactly when the
    token is the admin password; a request without authorization header, or
    with an empty one, is turned away. The token a successful login hands
    out, sent back in that form, is let through, and a login succeeds only
    with the password. *)
Theorem requireAdmin_bearer ADMIN_PASSWORD token password :
  (requireAdmin ADMIN_PASSWORD (Some (Bearer ++ token)) = true
     ↔ token = ADMIN_PASSWORD) ∧
  requireAdmin ADMIN_PASSWORD None = false ∧
  requireAdmin ADMIN_PASSWORD (Some []) = false ∧
  (∀ t, adminLogin ADMIN_PASSWORD password = Some t →
        password = ADMIN_PASSWORD ∧
        requireAdmin ADMIN_PASSWORD (Some (Bearer ++ t)) = true) ∧
  (adminLogin ADMIN_PASSWORD password = None ↔ password ≠ ADMIN_PASSWORD).
Proof.
  assert (∀ t, requireAdmin ADMIN_PASSWORD (Some (Bearer ++ t)) = true
               ↔ t = ADMIN_PASSWORD) as Hbearer.
  { intros t. unfold requireAdmin.
    destruct (Bearer ++ t) as [|c s] eqn:Heq; [discriminate Heq|].
    rewrite <- Heq, replace_first_prefix. apply bool_decide_eq_true. }
  split_and!; [apply Hbearer|done|done| |].
  - intros t. unfold adminLogin. case_bool_decide; [|done].
    intros [= <-]. split; [done|]. by apply Hbearer.
  - unfold adminLogin. by case_bool_decide.
Qed.

(** ** Trending *)

(** The first [k] of a sorted array are in order and none of the others
    beats any of them. *)
Lemma take_sort_top {A} (key : A → Z) k (l : list A) :
  let sorted := sort (λ a b, (key b - key a)%Z) l in
  StronglySorted (λ a b, (key b ≤ key a)%Z) (take k sorted) ∧
  take k sorted `sublist_of` sorted ∧
  sorted ≡ₚ l ∧
  (∀ x y, x ∈ take k sorted → y ∈ drop k sorted → (key y ≤ key x)%Z).
Proof.
  intros sorted. pose proof (sort_sorted key l) as Hs. fold sorted in Hs.
  rewrite <- (take_drop k sorted) in Hs. split_and!.
  - by eapply StronglySorted_app_1_l.
  - apply sublist_take.
  - apply sort_perm.
  - intros x y Hx Hy.
    by apply (StronglySorted_app_1_elem_of _ _ _ x y Hs).
Qed.

Lemma StronglySorted_weaken {A} (R R' : relation A) (l : list A) :
  (∀ x y, R x y → R' x y) → StronglySorted R l → StronglySorted R' l.
Proof.
  intros Himpl. induction 1 as [|x l _ IH Hx]; constructor; [done|].
  eapply Forall_impl; [exact Hx|]. auto.
Qed.

Lemma count_of_cons tag t n m :
  count_of tag ((t, n) :: m) = (if decide (t = tag) then n else 0) + count_of tag m.
Proof. unfold count_of. rewrite filter_cons. simpl. by case_decide. Qed.

Lemma bump_count tag t m :
  count_of tag (bump t m) = count_of tag m + (if decide (t = tag) then 1 else 0).
Proof.
  induction m as [|[t' n] m IH]; simpl.
  - rewrite count_of_cons. unfold count_of. simpl. lia.
  - destruct (decide (t' = t)) as [->|Hne]; rewrite !count_of_cons.
    + case_decide; lia.
    + rewrite IH. lia.
Qed.

Lemma bump_keys t m :
  fst <$> bump t m = if decide (t ∈ fst <$> m) then fst <$> m else (fst <$> m) ++ [t].
Proof.
  induction m as [|[t' n] m IH]; [done|]. cbn [bump].
  destruct (decide (t' = t)) as [->|Hne]; rewrite !fmap_cons; cbn [fst].
  - rewrite decide_True; [done|]. apply list_elem_of_here.
  - rewrite IH. destruct (decide (t ∈ fst <$> m)) as [Hin|Hout].
    + rewrite decide_True; [done|]. by apply elem_of_cons; right.
    + rewrite decide_False; [done|].
      intros [Heq|Hin]%elem_of_cons; [by destruct Hne|done].
Qed.

Lemma bump_NoDup t m : NoDup (fst <$> m) → NoDup (fst <$> bump t m).
Proof.
  intros Hnd. rewrite bump_keys. case_decide as Hin; [done|].
  apply NoDup_app. split_and!; [done| |apply NoDup_singleton].
  by intros u Hu ->%list_elem_of_singleton.
Qed.

Lemma bump_positive t m :
  Forall (λ e, 1 ≤ snd e) m → Forall (λ e, 1 ≤ snd e) (bump t m).
Proof.
  induction 1 as [|[t' n] m Hn Hm IH]; cbn [bump]; [by repeat constructor|].
  simpl in Hn. case_decide; constructor; simpl; auto with lia.
Qed.

Lemma bump_all_count tag tags m :
  NoDup tags →
  count_of tag (foldl (λ m t, bump t m) m tags)
  = count_of tag m + (if decide (tag ∈ tags) then 1 else 0).
Proof.
  intros Hnd. revert m.
  induction Hnd as [|t tags Hout _ IH]; intros m; cbn [foldl].
  - rewrite decide_False; [lia|]. by intros ?%elem_of_nil.
  - rewrite IH, bump_count.
    destruct (decide (t = tag)) as [->|Hne].
    + rewrite decide_False by done.
      rewrite decide_True; [lia|]. apply list_elem_of_here.
    + destruct (decide (tag ∈ tags)) as [Hin|Hnin].
      * rewrite decide_True; [lia|]. by apply elem_of_cons; right.
      * rewrite decide_False; [lia|].
        intros [Heq|Hin]%elem_of_cons; [by destruct Hne|done].
Qed.

Lemma bump_all_inv tags m :
  NoDup (fst <$> m) → Forall (λ e, 1 ≤ snd e) m →
  NoDup (fst <$> foldl (λ m t, bump t m) m tags) ∧
  Forall (λ e, 1 ≤ snd e) (foldl (λ m t, bump t m) m tags).
Proof.
  revert m. induction tags as [|t tags IH]; intros m Hnd Hpos; cbn [foldl]; [done|].
  apply IH; [by apply bump_NoDup|by apply bump_positive].
Qed.

Lemma hashtagCount_inv ps m0 :
  NoDup (fst <$> m0) → Forall (λ e, 1 ≤ snd e) m0 →
  let m := foldl (λ m post, foldl (λ m tag, bump tag m) m
                              (extractHashtags (Post.content post))) m0 ps in
  NoDup (fst <$> m) ∧ Forall (λ e, 1 ≤ snd e) m ∧
  ∀ tag, count_of tag m = count_of tag m0 + posts_with_tag tag ps.
Proof.
  revert m0. induction ps as [|p ps IH]; intros m0 Hnd Hpos; cbn [foldl].
  - split_and!; [done..|]. intros tag. unfold posts_with_tag. simpl. lia.
  - destruct (bump_all_inv (extractHashtags (Post.content p)) m0 Hnd Hpos)
      as [Hnd' Hpos'].
    destruct (IH _ Hnd' Hpos') as (Hnd'' & Hpos'' & Hcount).
    split_and!; [done..|]. intros tag. rewrite Hcount.
    rewrite bump_all_count by apply set_order_NoDup.
    unfold posts_with_tag. rewrite filter_cons.
    case_decide; simpl; lia.
Qed.

Lemma count_of_entry tag n m :
  NoDup (fst <$> m) → (tag, n) ∈ m → count_of tag m = n.
Proof.
  unfold count_of. induction m as [|[t k] m IH]; simpl.
  - by intros _ ?%elem_of_nil.
  - intros [Hout Hnd]%NoDup_cons [Heq|Hin]%elem_of_cons.
    + injection Heq as <- <-. rewrite filter_cons_True by done.
      rewrite filter_none; [simpl; lia|].
      apply Forall_forall. intros [t' k'] Hin' Heq. simpl in Heq. subst t'.
      apply Hout. apply list_elem_of_fmap. by exists (tag, k').
    + rewrite filter_cons_False; [by apply IH|].
      simpl. intros ->. apply Hout. apply list_elem_of_fmap. by exists (tag, n).
Qed.

(** The trending hashtags are at most ten, each listed once, in descending
    order of count; the count of a tag is the number of posts that carry it
    (in any case), at least one; and no tag left out is carried by more
    posts than a tag listed. *)
Theorem trendingHashtags_top db :
  length (trendingHashtags db) ≤ 10 ∧
  NoDup (fst <$> trendingHashtags db) ∧
  StronglySorted (λ a b, snd b ≤ snd a) (trendingHashtags db) ∧
  (∀ tag n, (tag, n) ∈ trendingHashtags db →
            1 ≤ n ∧ n = posts_with_tag tag (posts db)) ∧
  (∀ tag n tag', (tag, n) ∈ trendingHashtags db →
                 tag' ∉ fst <$> trendingHashtags db →
                 posts_with_tag tag' (posts db) ≤ n).
Proof.
  unfold trendingHashtags.
  destruct (hashtagCount_inv (posts db) []) as (Hnd & Hpos & Hcount);
    [constructor..|]. fold (hashtagCount (posts db)) in *.
  destruct (take_sort_top (λ e : jsstring * nat, Z.of_nat (snd e)) 10
              (hashtagCount (posts db))) as (Hsorted & Hsub & Hperm & Htop).
  set (sorted := sort _ (hashtagCount (posts db))) in *.
  assert (NoDup (fst <$> sorted)) as Hnd' by by rewrite Hperm.
  assert (∀ tag n, (tag, n) ∈ sorted → 1 ≤ n ∧ n = posts_with_tag tag (posts db))
    as Hentry.
  { intros tag n Hin. rewrite Hperm in Hin. split.
    - by eapply Forall_forall in Hpos; [|exact Hin].
    - by rewrite <- (count_of_entry tag n _ Hnd Hin), Hcount. }
  split_and!.
  - rewrite length_take. lia.
  - eapply sublist_NoDup; [exact Hnd'|]. by apply fmap_sublist.
  - eapply StronglySorted_weaken; [|exact Hsorted]. simpl. lia.
  - intros tag n Hin. apply Hentry. by apply (sublist_subseteq _ _ Hsub).
  - intros tag n tag' Hin Hout.
    destruct (decide (tag' ∈ fst <$> sorted)) as [Hkey|Hnokey].
    + apply list_elem_of_fmap in Hkey as ([t n'] & -> & Hin'). simpl in Hout |- *.
      destruct (Hentry _ _ Hin') as [_ <-].
      rewrite <- (take_drop 10 sorted) in Hin'.
      apply elem_of_app in Hin' as [Hin'|Hin'].
      * destruct Hout. apply list_elem_of_fmap. by exists (t, n').
      * specialize (Htop _ _ Hin Hin'). simpl in Htop. lia.
    + assert (count_of tag' (hashtagCount (posts db)) = 0) as Hzero.
      { unfold count_of. rewrite filter_none; [done|].
        apply Forall_forall. intros [t k] Hin' Heq. simpl in Heq. subst t.
        apply Hnokey. rewrite Hperm. apply list_elem_of_fmap. by exists (tag', k). }
      rewrite Hcount in Hzero. unfold count_of in Hzero. simpl in Hzero. lia.
Qed.

(** The trending posts are at most five stored posts stamped within the last
    24 hours (a post whose timestamp cannot be read is never among them), in
    descending order of [netVotes], each with the tally of its votes; and no
    recent post left out has a higher tally than one listed. *)
Theorem trending_top Date_ms now db :
  length (trending Date_ms now db) ≤ 5 ∧
  StronglySorted (λ a b, (snd b ≤ snd a)%Z) (trending Date_ms now db) ∧
  (∀ p n, (p, n) ∈ trending Date_ms now db →
          p ∈ posts db ∧
          (∃ t, Date_ms (Post.timestamp p) = Some t ∧ (now - 86400000 < t)%Z) ∧
          n = netVotes_from_scratch (Post.id p) (votes db)) ∧
  (∀ p n q, (p, n) ∈ trending Date_ms now db →
            q ∈ posts db → is_recent Date_ms now q →
            (q, netVotes_from_scratch (Post.id q) (votes db)) ∉ trending Date_ms now db →
            (netVotes_from_scratch (Post.id q) (votes db) ≤ n)%Z).
Proof.
  unfold trending.
  set (entry := λ post : Post.t, (post, _)).
  assert (∀ p, entry p = (p, netVotes_from_scratch (Post.id p) (votes db))) as Hentry.
  { intros p. unfold entry, netVotes_from_scratch. by rewrite !count_type_tally. }
  set (recent := entry <$> filter (is_recent Date_ms now) (posts db)).
  destruct (take_sort_top (snd : Post.t * Z → Z) 5 recent)
    as (Hsorted & Hsub & Hperm & Htop).
  set (sorted := sort _ recent) in *.
  split_and!.
  - rewrite length_take. lia.
  - done.
  - intros p n Hin. apply (sublist_subseteq _ _ Hsub) in Hin.
    rewrite Hperm in Hin. apply list_elem_of_fmap in Hin as (q & Heq & Hq).
    rewrite Hentry in Heq. injection Heq as -> ->.
    apply list_elem_of_filter in Hq as [Hrecent Hq]. split_and!; [done| |done].
    unfold is_recent in Hrecent. destruct (Date_ms _) as [t|]; [|done].
    exists t. split; [done|lia].
  - intros p n q Hin Hq Hrecent Hout.
    assert ((q, netVotes_from_scratch (Post.id q) (votes db)) ∈ sorted) as Hqin.
    { rewrite Hperm. apply list_elem_of_fmap. exists q.
      split; [by rewrite Hentry|]. by apply list_elem_of_filter. }
    rewrite <- (take_drop 5 sorted) in Hqin.
    apply elem_of_app in Hqin as [Hqin|Hqin]; [done|].
    apply (Htop _ _ Hin Hqin).
Qed.

Lemma trending_top_witness :
  (Post.id ∘ fst <$> trending digit_ms 7 db_stamped = ["b"; "a"]%string) ∧
  (∀ p n, (p, n) ∈ trending digit_ms 7 db_stamped → p ∈ posts db_stamped).
Proof.
  split; [reflexivity|]. intros p n Hin.
  exact (proj1 (proj1 (proj2 (proj2 (trending_top digit_ms 7 db_stamped))) p n Hin)).
Defined.

(** ** Statistics and the admin view *)

Lemma sumZ_perm (l1 l2 : list Z) : l1 ≡ₚ l2 → sumZ l1 = sumZ l2.
Proof.
  induction 1 as [|x l1 l2 _ IH|x y l|l1 l2 l3 _ IH1 _ IH2]; simpl; lia.
Qed.

Lemma total_votes_sum ty ps vs :
  total_votes ty ps vs
  = sum_list_with (λ p, count_type ty (postVotes (Post.id p) vs)) ps.
Proof.
  unfold total_votes.
  assert (∀ acc, foldl (λ acc post, acc + count_type ty (postVotes (Post.id post) vs))
                   acc ps
                 = acc + sum_list_with
                           (λ p, count_type ty (postVotes (Post.id p) vs)) ps) as Hacc.
  { induction ps as [|p ps IH]; intros acc; simpl; [lia|]. rewrite IH. lia. }
  by rewrite Hacc.
Qed.

Lemma own_entries_perm voterId db :
  own_entries voterId db
  ≡ₚ view voterId db <$> filter (λ p, Post.ownerId p = voterId) (posts db).
Proof.
  unfold own_entries, listPosts.
  rewrite (sort_perm PostView.netVotes).
  induction (posts db) as [|p ps IH]; [done|].
  rewrite fmap_cons, !filter_cons. cbn [view PostView.isOwner].
  destruct (decide (Post.ownerId p = voterId)) as [Hown|Hother].
  - rewrite decide_True by by apply bool_decide_eq_true.
    by rewrite fmap_cons, IH.
  - rewrite decide_False; [done|]. by rewrite bool_decide_eq_true.
Qed.

Lemma views_sumZ voterId db ps :
  sumZ (PostView.netVotes <$> (view voterId db <$> ps))
  = (Z.of_nat (sum_list_with (λ p, count_type up (postVotes (Post.id p) (votes db))) ps)
     - Z.of_nat (sum_list_with
                   (λ p, count_type down (postVotes (Post.id p) (votes db))) ps))%Z.
Proof.
  induction ps as [|p ps IH]; [done|].
  rewrite !fmap_cons. change (sumZ (?x :: ?l)) with (x + sumZ l)%Z.
  rewrite IH. cbn [view PostView.netVotes sum_list_with]. lia.
Qed.

Lemma views_sum_up voterId db ps :
  sum_list (PostView.upvotes <$> (view voterId db <$> ps))
  = sum_list_with (λ p, count_type up (postVotes (Post.id p) (votes db))) ps.
Proof.
  induction ps as [|p ps IH]; [done|].
  rewrite !fmap_cons. cbn [sum_list sum_list_with view PostView.upvotes].
  f_equal. exact IH.
Qed.

(** The statistics of an identity agree with what the listing shows it: the
    number of posts is the number of entries marked as its own, the up-votes
    received are the sum of their up-votes, and the karma is the sum of
    their [netVotes]. *)
Theorem userStats_listing voterId db :
  Stats.postsCount (userStats voterId db) = length (own_entries voterId db) ∧
  Stats.totalUpvotes (userStats voterId db)
    = sum_list (PostView.upvotes <$> own_entries voterId db) ∧
  Stats.karma (userStats voterId db)
    = sumZ (PostView.netVotes <$> own_entries voterId db).
Proof.
  pose proof (own_entries_perm voterId db) as Hperm.
  cbn [userStats Stats.postsCount Stats.totalUpvotes Stats.karma].
  set (own := filter (λ p, Post.ownerId p = voterId) (posts db)) in *.
  split_and!.
  - by rewrite Hperm, length_fmap.
  - by rewrite total_votes_sum, Hperm, views_sum_up.
  - rewrite !total_votes_sum, (sumZ_perm _ _ (fmap_Permutation _ _ _ Hperm)).
    by rewrite views_sumZ.
Qed.

Lemma votes_up_or_down (vs : list Vote.t) :
  length vs = count_type up vs + count_type down vs.
Proof.
  unfold count_type. induction vs as [|v vs IH]; [done|].
  rewrite !filter_cons. destruct v as [? ? [] ?]; simpl;
    repeat case_decide; try done; simpl; lia.
Qed.

(** The admin view lists the stored posts in their stored order, without
    sorting. For each, the vote count is the sum of the up-votes and
    down-votes the public listing shows, the comment count is the one of the
    public listing, and a post marked as banned is one whose owner the gate
    turns away. *)
Theorem adminPosts_listing banned db :
  AdminPost.post <$> adminPosts banned db = posts db ∧
  ∀ a, a ∈ adminPosts banned db →
    (∀ viewer,
       let entry := view viewer db (AdminPost.post a) in
       AdminPost.voteCount a = PostView.upvotes entry + PostView.downvotes entry ∧
       AdminPost.commentCount a = PostView.commentCount entry) ∧
    (AdminPost.isBanned a = true ↔ Post.ownerId (AdminPost.post a) ∈ banned) ∧
    (AdminPost.isBanned a = true →
     ∀ req, caller_of req = Some (Post.ownerId (AdminPost.post a)) →
            handle req (mkState db banned) = mkState db banned).
Proof.
  unfold adminPosts. split.
  - rewrite <- list_fmap_compose. apply list_fmap_id.
  - intros a (p & -> & Hp)%list_elem_of_fmap. cbn. split_and!.
    + intros viewer. split; [|done]. apply votes_up_or_down.
    + apply bool_decide_eq_true.
    + intros Hbanned%bool_decide_eq_true req Hreq.
      by apply (handle_banned_caller req _ (Post.ownerId p)).
Qed.

(** ** How the routes show in the listing *)

(** [find] returns the first element [filter] keeps. *)
Lemma list_find_head {A} (P : A → Prop) `{!∀ x, Decision (P x)} (l : list A) :
  snd <$> list_find P l = head (filter P l).
Proof.
  induction l as [|x l IH]; [done|].
  rewrite filter_cons. cbn [list_find].
  destruct (decide (P x)); [done|].
  rewrite <- IH. by destruct (list_find P l) as [[i y]|].
Qed.



Lemma isBookmarked_filter id userId bs :
  isBookmarked id userId bs = bool_decide (filter (is_bookmark_of id userId) bs ≠ []).
Proof.
  unfold isBookmarked. apply bool_decide_ext. rewrite Exists_exists. split.
  - intros (b & Hb & Hm) Hnil. by eapply (filter_nil_not_elem_of _ _ b).
  - intros Hne. destruct (filter _ bs) as [|b l] eqn:Hf; [done|].
    assert (b ∈ filter (is_bookmark_of id userId) bs) as Hb
      by (rewrite Hf; apply list_elem_of_here).
    apply list_elem_of_filter in Hb as [Hm Hb]. by exists b.
Qed.

(** The entry of a post depends on the votes, comments and bookmarks of that
    post only. *)
Lemma view_local voterId db db' p :
  postVotes (Post.id p) (votes db') = postVotes (Post.id p) (votes db) →
  filter (λ c, Comment.postId c = Post.id p) (comments db')
    = filter (λ c, Comment.postId c = Post.id p) (comments db) →
  filter (λ b, Bookmark.postId b = Post.id p) (bookmarks db')
    = filter (λ b, Bookmark.postId b = Post.id p) (bookmarks db) →
  view voterId db' p = view voterId db p.
Proof.
  intros Hv Hc Hb. unfold view. rewrite Hv, Hc.
  assert (∀ vs, snd <$> list_find (is_vote_of (Post.id p) voterId) vs
                = head (filter (λ v, Vote.voterId v = voterId) (postVotes (Post.id p) vs)))
    as Hfind.
  { intros vs. rewrite list_find_head. unfold postVotes.
    rewrite list_filter_filter. f_equal. apply list_filter_iff.
    unfold is_vote_of. tauto. }
  rewrite !Hfind, Hv.
  assert (∀ bs, isBookmarked (Post.id p) voterId bs
                = bool_decide (filter (λ b, Bookmark.userId b = voterId)
                                 (filter (λ b, Bookmark.postId b = Post.id p) bs) ≠ []))
    as Hbm.
  { intros bs. rewrite isBookmarked_filter, list_filter_filter.
    apply bool_decide_ext.
    rewrite (list_filter_iff (is_bookmark_of (Post.id p) voterId)
               (λ b, Bookmark.userId b = voterId ∧ Bookmark.postId b = Post.id p));
      [done|]. unfold is_bookmark_of. tauto. }
  by rewrite !Hbm, Hb.
Qed.

(** A vote only ever touches rows of its own pair. *)
Lemma vote_change_filter id voterId ty now vs vs' (Q : Vote.t → Prop)
    `{!∀ v, Decision (Q v)} :
  vote_change id voterId ty now vs vs' →
  (∀ v, is_vote_of id voterId v → ¬ Q v) →
  filter Q vs' = filter Q vs.
Proof.
  intros [l1 v l2 -> _ Hv _|l1 v l2 -> _ Hv _|_] Hother.
  - rewrite !filter_app, filter_cons_False; [done|by apply Hother].
  - rewrite !filter_app, !filter_cons_False; [done|by apply Hother|].
    by apply Hother, is_vote_of_set_type.
  - rewrite filter_app, filter_cons_False, filter_nil, app_nil_r; [done|].
    by apply Hother.
Qed.

(** After a successful vote the caller's listing shows, for the post, the
    tallies and the own vote the answer carried; the entries of all other
    posts are what they were, for every viewer, and so is what any other
    viewer sees as the own vote on the post. *)
Theorem castVote_listing id voterId type now db r db' :
  castVote id voterId type now db = (Ok r, db') →
  posts db' = posts db ∧
  (∀ p, Post.id p = id →
     PostView.upvotes (view voterId db' p) = VoteResponse.upvotes r ∧
     PostView.downvotes (view voterId db' p) = VoteResponse.downvotes r ∧
     PostView.netVotes (view voterId db' p) = VoteResponse.netVotes r ∧
     PostView.userVote (view voterId db' p) = VoteResponse.userVote r) ∧
  (∀ viewer p, Post.id p ≠ id → view viewer db' p = view viewer db p) ∧
  (∀ viewer p, viewer ≠ voterId →
     PostView.userVote (view viewer db' p) = PostView.userVote (view viewer db p)).
Proof.
  unfold castVote. destruct (parseType type) as [ty|]; [|done].
  destruct (list_find _ (posts db)) as [found|]; [|done].
  intros [= <- <-]. cbn [posts votes set_votes].
  pose proof (apply_vote_change id voterId ty now (votes db)) as Hchange.
  split_and!.
  - done.
  - intros p <-. cbn. split_and!; try done. by rewrite option_fmap_compose.
  - intros viewer p Hne. apply view_local; cbn; [|done..].
    eapply vote_change_filter; [exact Hchange|]. intros v [Hid _]. congruence.
  - intros viewer p Hne. cbn. rewrite !list_find_head. do 2 f_equal.
    eapply vote_change_filter; [exact Hchange|].
    intros v [_ Hvoter] [_ Hviewer]. congruence.
Qed.

Lemma castVote_listing_witness :
  ∃ r db', castVote "p1" "carol" "up" "t9" db_listing = (Ok r, db') ∧
           PostView.netVotes <$> listPosts "carol" db' = [2; 1; 0]%Z ∧
           PostView.netVotes (view "carol" db' post1) = VoteResponse.netVotes r.
Proof.
  eexists _, _. split; [reflexivity|]. split; [reflexivity|].
  refine (proj1 (proj2 (proj2 (proj1 (proj2
    (castVote_listing "p1" "carol" "up" "t9" db_listing _ _ eq_refl)) post1 _)))).
  reflexivity.
Defined.


Lemma cascade_view viewer id ps db p :
  Post.id p ≠ id → view viewer (cascade id ps db) p = view viewer db p.
Proof.
  intros Hne. apply view_local; cbn; unfold postVotes;
    rewrite list_filter_filter; apply list_filter_iff; intros x; split;
    try tauto; intros Heq; (split; [done|congruence]).
Qed.




(** The owner's route never takes away the post of another identity, nor
    anything that hangs on it, as long as no two posts share an id: after
    any call, every post the caller does not own is still stored and its
    entry in the listing is unchanged. *)
Theorem deletePost_only_own id voterId viewer db p :
  (∀ id', post_rows id' (posts db) ≤ 1) →
  p ∈ posts db → Post.ownerId p ≠ voterId →
  p ∈ posts (snd (deletePost id voterId db)) ∧
  view viewer (snd (deletePost id voterId db)) p = view viewer db p.
Proof.
  intros Huniq Hp Hother. unfold deletePost.
  destruct (list_find _ (posts db)) as [[i post]|] eqn:Hfind; [|done].
  case_bool_decide as Howner; [done|]. cbn [snd].
  assert (Post.id p ≠ id) as Hne.
  { intros Hid.
    apply list_find_split in Hfind as (l1 & l2 & Hps & _ & Hl1 & Hpost).
    specialize (Huniq id). unfold post_rows in Huniq. rewrite Hps in Huniq, Hp.
    pose proof (at_most_one_rest _ _ _ _ Hpost Huniq) as Hl2.
    rewrite (single_match _ _ _ _ _ Hl1 Hl2 Hp Hid) in Hother.
    apply Hother. by destruct (decide (Post.ownerId post = voterId)). }
  split; [by apply list_elem_of_filter|by apply cascade_view].
Qed.

Lemma deletePost_only_own_witness :
  post1 ∈ posts (snd (deletePost "p1" "bob" db_listing)) ∧
  post1 ∈ posts (snd (deletePost "p2" "bob" db_listing)).
Proof.
  assert (∀ id', post_rows id' (posts db_listing) ≤ 1) as Huniq.
  { intros id'. unfold post_rows. cbn [posts db_listing].
    rewrite !filter_cons, filter_nil. cbn [Post.id post1 post2 post3].
    destruct (decide ("p1"%string = id')) as [E1|N1];
      destruct (decide ("p2"%string = id')) as [E2|N2];
      destruct (decide ("p3"%string = id')) as [E3|N3]; simpl; try lia; congruence. }
  assert (post1 ∈ posts db_listing) as Hin by apply list_elem_of_here.
  assert (Post.ownerId post1 ≠ "bob"%string) as Hother by discriminate.
  split.
  - exact (proj1 (deletePost_only_own "p1" "bob" "bob" db_listing post1 Huniq Hin Hother)).
  - exact (proj1 (deletePost_only_own "p2" "bob" "bob" db_listing post1 Huniq Hin Hother)).
Defined.

(** ** Comments *)

(** A comment that is accepted is appended to the stored comments, with the
    trimmed content (1 to 500 code units) and the id of an existing post. In
    the listing the entries of that post get it as their last comment and
    count one more; the entries of every other post are unchanged. *)
Theorem addComment_listing id content uuid now db c db' :
  addComment id content uuid now db = (Ok c, db') →
  db' = set_comments (comments db ++ [c]) db ∧
  post_exists id db ∧
  Comment.postId c = id ∧ Comment.id c = uuid ∧
  (∃ s, content = Some s ∧ Comment.content c = trim s) ∧
  stored_text 500 (Comment.content c) ∧
  (∀ viewer p, Post.id p = id →
     PostView.comments (view viewer db' p) = PostView.comments (view viewer db p) ++ [c] ∧
     PostView.commentCount (view viewer db' p)
       = S (PostView.commentCount (view viewer db p))) ∧
  (∀ viewer p, Post.id p ≠ id → view viewer db' p = view viewer db p).
Proof.
  unfold addComment. destruct content as [content|]; [|done].
  destruct (bool_decide (content = []) || bool_decide (length (trim content) = 0))
    eqn:Hempty; [done|].
  apply orb_false_iff in Hempty as [_ Htrim%bool_decide_eq_false].
  destruct (bool_decide (500 < length content)) eqn:Hlong; [done|].
  apply bool_decide_eq_false in Hlong.
  destruct (list_find _ (posts db)) as [found|] eqn:Hfind; [|done].
  intros [= <- <-]. split_and!; try done.
  - apply post_exists_find. by rewrite Hfind.
  - by exists content.
  - apply trim_stored; [done|lia].
  - intros viewer p <-. cbn.
    rewrite filter_app, filter_cons_True, filter_nil by done.
    split; [done|]. rewrite length_app. simpl. lia.
  - intros viewer p Hne. apply view_local; cbn; [done| |done].
    rewrite filter_app, filter_cons_False, filter_nil, app_nil_r; [done|].
    cbn. congruence.
Qed.

Lemma addComment_listing_witness :
  ∃ c db', addComment "p1" (Some [32; 111; 107]%N) "c9" "t9" db_two_posts = (Ok c, db') ∧
           Comment.content c = [111; 107]%N ∧
           PostView.commentCount (view "bob" db' post1) = 2 ∧
           view "bob" db' post2 = view "bob" db_two_posts post2.
Proof.
  eexists _, _. split; [reflexivity|]. split; [reflexivity|]. split; [reflexivity|].
  refine (proj2 (proj2 (proj2 (proj2 (proj2 (proj2 (proj2
    (addComment_listing "p1" (Some [32; 111; 107]%N) "c9" "t9" db_two_posts _ _
       eq_refl))))))) "bob" post2 _).
  discriminate.
Defined.

(** A comment is refused as InvalidArgument when its content is missing, has
    only white space, or is longer than 500 code units, whether the post
    exists or not; a valid comment on a post that does not exist is refused
    as NotFound; and a refused comment leaves the store as it was. *)
Theorem addComment_refused id content uuid now db :
  (content = None ∨
   (∃ s : jsstring, content = Some s ∧
         (Forall (λ c, is_whitespace c = true) s ∨ 500 < length s)) →
   addComment id content uuid now db = (Err InvalidArgument, db)) ∧
  (∀ s : jsstring, content = Some s → Exists (λ c, is_whitespace c = false) s →
        length s ≤ 500 → ¬ post_exists id db →
        addComment id content uuid now db = (Err NotFound, db)) ∧
  (∀ f db', addComment id content uuid now db = (Err f, db') → db' = db).
Proof.
  unfold addComment. split_and!.
  - intros [->|(s & -> & Hbad)]; [done|]. cbn beta iota.
    destruct (bool_decide (s = []) || bool_decide (length (trim s) = 0))
      eqn:Hempty; [done|].
    apply orb_false_iff in Hempty as [_ Htrim%bool_decide_eq_false].
    destruct Hbad as [Hws|Hlong]; [|by rewrite bool_decide_eq_true_2].
    apply trim_empty in Hws. by rewrite Hws in Htrim.
  - intros s -> Hex%not_all_whitespace Hlen Hnone. cbn beta iota.
    assert (s ≠ []) as Hne by (by intros ->).
    rewrite (bool_decide_eq_false_2 _ Hne), (bool_decide_eq_false_2 _ Hex).
    rewrite (bool_decide_eq_false_2 (500 < length s)) by lia.
    destruct (list_find _ (posts db)) as [found|] eqn:Hfind; [|done].
    destruct Hnone. apply post_exists_find. by rewrite Hfind.
  - intros f db'. repeat case_match; congruence.
Qed.

(** ** Bookmarks in the statistics *)

(** Every call of the bookmark route moves the caller's bookmark count by
    exactly one, up when it answers [bookmarked: true] and down when it
    answers [bookmarked: false], on any store; the counts of the other
    identities and the caller's other figures do not move. *)
Theorem toggleBookmark_stats id userId now db :
  ∃ b db',
    toggleBookmark id userId now db = (Ok b, db') ∧
    (if b
     then Stats.bookmarksCount (userStats userId db')
          = S (Stats.bookmarksCount (userStats userId db))
     else S (Stats.bookmarksCount (userStats userId db'))
          = Stats.bookmarksCount (userStats userId db)) ∧
    (∀ u, u ≠ userId → userStats u db' = userStats u db) ∧
    Stats.postsCount (userStats userId db') = Stats.postsCount (userStats userId db) ∧
    Stats.votesCount (userStats userId db') = Stats.votesCount (userStats userId db) ∧
    Stats.karma (userStats userId db') = Stats.karma (userStats userId db).
Proof.
  unfold toggleBookmark.
  destruct (list_find _ (bookmarks db)) as [[i b]|] eqn:Hfind; eexists _, _;
    (split; [done|]); unfold userStats; cbn.
  - apply list_find_split in Hfind as (l1 & l2 & Hbs & <- & _ & [_ Huser]).
    rewrite Hbs, delete_middle. split_and!; try done.
    + rewrite !filter_app, filter_cons_True, !length_app by done. simpl. lia.
    + intros u Hne. do 2 f_equal.
      rewrite !filter_app, filter_cons_False; [done|congruence].
  - split_and!; try done.
    + rewrite filter_app, filter_cons_True, length_app by done. simpl. lia.
    + intros u Hne. do 2 f_equal.
      rewrite filter_app, filter_cons_False, filter_nil, app_nil_r; [done|].
      cbn. congruence.
Qed.

(** ** How a vote is refused *)

(** A vote is refused as InvalidArgument exactly when the type is neither
    ['up'] nor ['down'], whether the post exists or not, and as NotFound
    exactly when the type is one of the two and no post has the id; it is
    never refused as Forbidden by the route itself, and a refused vote
    leaves the store as it was. *)
Theorem castVote_refused id voterId type now db :
  (fst (castVote id voterId type now db) = Err InvalidArgument
     ↔ type ≠ "up"%string ∧ type ≠ "down"%string) ∧
  (fst (castVote id voterId type now db) = Err NotFound
     ↔ (type = "up"%string ∨ type = "down"%string) ∧ ¬ post_exists id db) ∧
  fst (castVote id voterId type now db) ≠ Err Forbidden ∧
  (∀ f, fst (castVote id voterId type now db) = Err f →
        snd (castVote id voterId type now db) = db).
Proof.
  unfold castVote.
  destruct (parseType type) as [ty|] eqn:Hty.
  - apply parseType_up_down in Hty.
    assert (type = "up"%string ∨ type = "down"%string) as Hvalid by tauto.
    assert (¬ (type ≠ "up"%string ∧ type ≠ "down"%string)) as Hnot by tauto.
    destruct (list_find _ (posts db)) as [found|] eqn:Hfind; cbn [fst snd].
    + assert (post_exists id db) by (apply post_exists_find; by rewrite Hfind).
      split_and!; [split; [done|tauto]|split; [done|tauto]|done|done].
    + assert (¬ post_exists id db).
      { intros Hex%post_exists_find. rewrite Hfind in Hex. by destruct Hex. }
      split_and!; [split; [done|tauto]|done|done|done].
  - cbn [fst snd].
    assert (type ≠ "up"%string ∧ type ≠ "down"%string) as Hinvalid.
    { split; intros ->; discriminate. }
    split_and!; [done|split; [done|tauto]|done|done].
Qed.

(** ** A new post in the listing *)

Lemma sort_insert_split {A} (key : A → Z) x (l : list A) :
  StronglySorted (λ a b, (key b ≤ key a)%Z) l →
  ∃ l1 l2, l = l1 ++ l2 ∧
           sort_insert (λ a b, (key b - key a)%Z) x l = l1 ++ x :: l2 ∧
           Forall (λ y, (key x < key y)%Z) l1 ∧
           Forall (λ y, (key y ≤ key x)%Z) l2.
Proof.
  induction 1 as [|y l Hs IH Hy]; simpl.
  - exists [], []. by repeat constructor.
  - case_bool_decide as Hcmp.
    + exists [], (y :: l). split_and!; [done..|constructor|].
      constructor; [lia|]. eapply Forall_impl; [exact Hy|]. simpl. lia.
    + destruct IH as (l1 & l2 & -> & -> & Hl1 & Hl2).
      exists (y :: l1), l2. split_and!; [done..| |done].
      constructor; [lia|done].
Qed.

(** A post that is accepted shows in everybody's listing, the other entries
    keeping their places: it stands behind the entries with a higher
    [netVotes] and in front of all others, so first among its equals. Its
    tally is zero unless the store already held votes for its id, and it is
    marked as the viewer's own exactly for its creator. *)
Theorem createPost_listing content tags media ownerId uuid now color viewer db post db' :
  createPost content tags media ownerId uuid now color db = (Ok post, db') →
  ∃ before after,
    listPosts viewer db = before ++ after ∧
    listPosts viewer db' = before ++ view viewer db' post :: after ∧
    Forall (λ a, (PostView.netVotes (view viewer db' post) < PostView.netVotes a)%Z)
           before ∧
    Forall (λ a, (PostView.netVotes a ≤ PostView.netVotes (view viewer db' post))%Z)
           after ∧
    (Forall (λ v, Vote.postId v ≠ uuid) (votes db) →
       PostView.netVotes (view viewer db' post) = 0%Z) ∧
    PostView.isOwner (view viewer db' post) = bool_decide (ownerId = viewer).
Proof.
  unfold createPost. repeat (case_match; try done).
  intros [= <- <-].
  set (post := Post.mk _ _ _ _ _ _ _). set (db' := set_posts _ db).
  assert (listPosts viewer db'
          = sort_insert (λ a b, (PostView.netVotes b - PostView.netVotes a)%Z)
              (view viewer db' post) (listPosts viewer db)) as Hlist.
  { unfold listPosts. cbn [posts db' set_posts]. by rewrite fmap_cons. }
  destruct (sort_insert_split PostView.netVotes (view viewer db' post)
              (listPosts viewer db)) as (before & after & Hold & Hnew & Hbefore & Hafter).
  { apply (sort_sorted PostView.netVotes). }
  exists before, after. rewrite Hlist. split_and!; try done.
  intros Hnone.
  change (PostView.netVotes (view viewer db' post)) with (net_of uuid (votes db)).
  unfold net_of, postVotes. rewrite filter_none; [done|].
  eapply Forall_impl; [exact Hnone|]. cbn. auto.
Qed.

Lemma createPost_listing_witness :
  ∃ post db',
    createPost (Some [110; 101; 119]%N) None None "bob" "p4" "t9" 1 db_listing
      = (Ok post, db') ∧
    Post.id ∘ PostView.post <$> listPosts "bob" db' = ["p2"; "p4"; "p1"; "p3"]%string.
Proof.
  destruct (createPost_listing (Some [110; 101; 119]%N) None None "bob" "p4" "t9" 1
              "bob" db_listing _ _ eq_refl) as (before & after & _ & Hlist & _).
  eexists _, _. split; [reflexivity|]. reflexivity.
Defined.

(** ** The properties at work on the example stores *)

Lemma requireAdmin_bearer_witness :
  adminLogin admin123 admin123 = Some admin123 ∧
  requireAdmin admin123 (Some (Bearer ++ admin123)) = true ∧
  requireAdmin admin123 (Some admin123) = true ∧
  requireAdmin admin123 (Some (Bearer ++ [120%N])) = false.
Proof.
  split; [reflexivity|]. split; [|split; reflexivity].
  exact (proj2 (proj1 (proj2 (proj2 (proj2
    (requireAdmin_bearer admin123 admin123 admin123)))) admin123 eq_refl)).
Defined.

Lemma trendingHashtags_top_witness :
  trendingHashtags db_tagged = [([35; 98]%N, 3); ([35; 97]%N, 2)] ∧
  posts_with_tag [35; 98]%N (posts db_tagged) = 3.
Proof.
  split; [reflexivity|]. symmetry.
  refine (proj2 (proj1 (proj2 (proj2 (proj2 (trendingHashtags_top db_tagged))))
                   [35; 98]%N 3 _)).
  apply list_elem_of_here.
Defined.

Lemma adminPosts_listing_witness :
  AdminPost.voteCount <$> adminPosts ["alice"%string] db_listing = [2; 1; 0] ∧
  AdminPost.isBanned <$> adminPosts ["alice"%string] db_listing = [true; false; false] ∧
  AdminPost.post <$> adminPosts ["alice"%string] db_listing = posts db_listing.
Proof.
  split; [reflexivity|]. split; [reflexivity|].
  exact (proj1 (adminPosts_listing ["alice"%string] db_listing)).
Defined.

Lemma addComment_refused_witness :
  addComment "ghost" (Some [32; 10]%N) "c9" "t9" db_two_posts
    = (Err InvalidArgument, db_two_posts) ∧
  addComment "ghost" (Some [111; 107]%N) "c9" "t9" db_two_posts
    = (Err NotFound, db_two_posts).
Proof.
  split.
  - refine (proj1 (addComment_refused "ghost" (Some [32; 10]%N) "c9" "t9"
                     db_two_posts) _).
    right. exists [32; 10]%N. split; [reflexivity|]. left. by repeat constructor.
  - reflexivity.
Defined.

Lemma toggleBookmark_stats_witness :
  Stats.bookmarksCount (userStats "bob" db_two_posts) = 1 ∧
  Stats.bookmarksCount
    (userStats "bob" (snd (toggleBookmark "p2" "bob" "t9" db_two_posts))) = 2 ∧
  ∃ b db', toggleBookmark "p2" "bob" "t9" db_two_posts = (Ok b, db').
Proof.
  split; [reflexivity|]. split; [reflexivity|].
  destruct (toggleBookmark_stats "p2" "bob" "t9" db_two_posts)
    as (b & db' & Hcall & _).
  by exists b, db'.
Defined.

Lemma userStats_listing_witness :
  Stats.karma (userStats "alice" db_listing) = 0%Z ∧
  Stats.karma (userStats "bob" db_listing) = 1%Z ∧
  Stats.karma (userStats "bob" db_listing)
    = sumZ (PostView.netVotes <$> own_entries "bob" db_listing).
Proof.
  split; [reflexivity|]. split; [reflexivity|].
  exact (proj2 (proj2 (userStats_listing "bob" db_listing))).
Defined.
